(** * privilege-cmd-controller: annotation protocol, privileged pod
      lifecycle and namespace-entry executor

    A shallow embedding of package [privexecutor] (helper.go, execute.go,
    privilege_pod.go, remote_command.go, remote_exec.go, controller.go) and
    the properties of its handlers.

    Conventions.
    - A Go [string] is a byte sequence: Rocq's [string].
    - [strings.Fields] and [strings.ToLower] are embedded as they act on
      ASCII strings, byte by byte; the Unicode tables they consult for
      bytes from 0x80 on are not embedded, and the general statements
      about the values of the two functions carry the hypothesis
      [isASCII].
    - A Go [error] is [option string]: [None] is [nil], [Some msg] carries
      the text of [err.Error()].
    - A Go function that may panic lives in the monad [Go]; a panic stops
      the call chain and is never recovered (the package has no [recover]).
    - [*v1.Pod] arguments that a function mutates in place are threaded:
      the function returns the state of the object after the call.
    - The Kubernetes client ([kubernetes.Interface]) is an external
      collaborator.  It is modelled as an in-memory API server ([store])
      driven by scripts of what the environment decides: request failures,
      watch events, exec streams, request identifiers.
    - [glog] calls are not modelled. *)

From Stdlib Require Import ZArith Ascii DecimalString.
From stdpp Require Import base option list strings gmap fin_maps pretty.

Local Open Scope Z_scope.

(** ** Go primitives *)

Module GoString.

(** [len(s)] *)
Definition len (s : string) : Z := Z.of_nat (String.length s).

(** The slice expression [s[lo:hi]]; [None] is the run-time panic
    "slice bounds out of range" that Go raises unless
    [0 <= lo <= hi <= len(s)]. *)
Definition slice (s : string) (lo hi : Z) : option string :=
  if (0 <=? lo) && (lo <=? hi) && (hi <=? len s)
  then Some (String.substring (Z.to_nat lo) (Z.to_nat (hi - lo)) s)
  else None.

(** [s[lo:]] is [s[lo:len(s)]]. *)
Definition sliceFrom (s : string) (lo : Z) : option string :=
  slice s lo (len s).

(** The quotation mark, for messages that quote a name. *)
Definition dquote : string := String "034"%char EmptyString.

(** [strings.Join] *)
Fixpoint join (sep : string) (l : list string) : string :=
  match l with
  | [] => ""
  | [x] => x
  | x :: rest => x +:+ sep +:+ join sep rest
  end.

(** The verb [%v] applied to a [[]string]. *)
Definition fmtSlice (l : list string) : string := "[" +:+ join " " l +:+ "]".

(** The verb [%d] applied to an [int]. *)
Definition fmtInt (n : Z) : string := NilZero.string_of_int (Z.to_int n).

(** The table [asciiSpace] of package strings: the white space among the
    bytes below [utf8.RuneSelf] (0x80), where it is [unicode.IsSpace].
    The white space runes from U+0085 on (U+0085, U+00A0, U+1680,
    U+2000 to U+200A, U+2028, U+2029, U+202F, U+205F, U+3000) take more
    than one byte and are not covered. *)
Definition isSpace (c : ascii) : bool :=
  let n := nat_of_ascii c in
  bool_decide (n = 32 ∨ (9 ≤ n ∧ n ≤ 13))%nat.

(** [strings.Fields] as it acts on a string whose bytes are all below
    [utf8.RuneSelf]: the maximal runs of bytes that are not white space,
    in order.  On a string with a byte from 0x80 on Go goes through
    [FieldsFunc(s, unicode.IsSpace)] and splits at the white space runes
    above as well, which this function does not: what is stated of
    [Fields] below is stated of ASCII strings.  [cur] is the field being
    read, in reverse. *)
Fixpoint fieldsAux (cur : list ascii) (s : string) : list string :=
  let flush rest :=
    match cur with
    | [] => rest
    | _ => String.string_of_list_ascii (rev cur) :: rest
    end in
  match s with
  | EmptyString => flush []
  | String c s' =>
      if isSpace c then flush (fieldsAux [] s') else fieldsAux (c :: cur) s'
  end.

Definition Fields (s : string) : list string := fieldsAux [] s.

(** [strings.Replace(s, "_", "-", -1)] *)
Fixpoint replaceUnderscores (s : string) : string :=
  match s with
  | EmptyString => EmptyString
  | String c s' =>
      String (if Ascii.eqb c "_"%char then "-"%char else c)
             (replaceUnderscores s')
  end.

(** [strings.ToLower] as it acts on a string whose bytes are all below
    [utf8.RuneSelf]: byte by byte, the letters A to Z moved to a to z.  On
    a string with a byte from 0x80 on Go maps [unicode.ToLower] over the
    runes, which changes letters outside ASCII, may change the length and
    replaces invalid bytes by U+FFFD; the Unicode tables are not part of
    this development: what is stated of [ToLower] below is stated of
    ASCII strings. *)
Definition lowerByte (c : ascii) : ascii :=
  let n := nat_of_ascii c in
  if bool_decide (65 ≤ n ∧ n ≤ 90)%nat then ascii_of_nat (n + 32) else c.

Fixpoint ToLower (s : string) : string :=
  match s with
  | EmptyString => EmptyString
  | String c s' => String (lowerByte c) (ToLower s')
  end.

End GoString.

Import GoString.

(** [error] *)
Definition error : Type := option string.

(** ** package constants *)

Module constants.
Definition AnnotationExecuteStatus : string := "privileged-command-status".
Definition AnnotationExecuteContainer : string := "privileged-command-container".
Definition AnnotationExecuteAction : string := "privileged-command-action".
Definition StatusActive : string := "active".
Definition StatusInProgress : string := "in-progress".
Definition StatusDone : string := "done".
Definition StatusError : string := "error".
Definition PrivilegeContainer : string := "priv-pod".
End constants.

(** ** The parts of [v1.Pod] the package reads or writes *)

Record VolumeMount := { vmName : string; MountPath : string }.

Record Container := {
  cName : string;
  Image : string;
  ImagePullPolicy : string;
  Privileged : option bool;          (* SecurityContext.Privileged, a *bool *)
  VolumeMounts : list VolumeMount
}.

Record Volume := {
  vName : string;
  HostPath : string;                 (* VolumeSource.HostPath.Path *)
  HostPathType : string
}.

Record ContainerStatus := {
  csName : string;
  ContainerID : string
}.

Definition PodRunning : string := "Running".

Record Pod := {
  (* ObjectMeta *)
  Name : string;
  Namespace : string;
  Annotations : option (gmap string string);   (* [None] is the nil map *)
  (* Spec *)
  ServiceAccountName : string;
  HostPID : bool;
  NodeName : string;
  RestartPolicy : string;
  Containers : list Container;
  Volumes : list Volume;
  (* Status *)
  Phase : string;
  InitContainerStatuses : list ContainerStatus;
  ContainerStatuses : list ContainerStatus
}.

(** The zero value [v1.Pod{}]. *)
Definition emptyPod : Pod :=
  {| Name := ""; Namespace := ""; Annotations := None;
     ServiceAccountName := ""; HostPID := false; NodeName := "";
     RestartPolicy := ""; Containers := []; Volumes := [];
     Phase := ""; InitContainerStatuses := []; ContainerStatuses := [] |}.

Definition setAnnotations (a : option (gmap string string)) (p : Pod) : Pod :=
  {| Name := Name p; Namespace := Namespace p; Annotations := a;
     ServiceAccountName := ServiceAccountName p; HostPID := HostPID p;
     NodeName := NodeName p; RestartPolicy := RestartPolicy p;
     Containers := Containers p; Volumes := Volumes p;
     Phase := Phase p; InitContainerStatuses := InitContainerStatuses p;
     ContainerStatuses := ContainerStatuses p |}.

Definition setPhase (ph : string) (p : Pod) : Pod :=
  {| Name := Name p; Namespace := Namespace p; Annotations := Annotations p;
     ServiceAccountName := ServiceAccountName p; HostPID := HostPID p;
     NodeName := NodeName p; RestartPolicy := RestartPolicy p;
     Containers := Containers p; Volumes := Volumes p;
     Phase := ph; InitContainerStatuses := InitContainerStatuses p;
     ContainerStatuses := ContainerStatuses p |}.

(** [pod.Annotations[key]]: reading a nil map or a missing key gives the
    zero value, the empty string. *)
Definition annotation (p : Pod) (key : string) : string :=
  default "" (Annotations p ≫= (.!! key)).

(** ** Strategic merge patches between two snapshots of a pod

    The handlers change nothing but annotations between the two
    [json.Marshal] snapshots they hand to
    [strategicpatch.CreateTwoWayMergePatch], so a patch is a patch of the
    annotation map. *)

Inductive Patch :=
  | PatchAnnotations (changes : gmap string (option string))
      (* {"metadata":{"annotations":{k: v, k': null}}}; no change is {} *)
  | PatchAnnotationsNull.
      (* {"metadata":{"annotations":null}} *)

(** The field is tagged [omitempty]: a nil and an empty map are both left
    out of the JSON document. *)
Definition jsonAnnotations (p : Pod) : option (gmap string string) :=
  match Annotations p with
  | Some m => if decide (m = ∅) then None else Some m
  | None => None
  end.

Definition diffEntry (o m : option string) : option (option string) :=
  match o, m with
  | _, Some v => if decide (o = Some v) then None else Some (Some v)
  | Some _, None => Some None
  | None, None => None
  end.

Definition CreateTwoWayMergePatch (original modified : Pod) : Patch :=
  match jsonAnnotations original, jsonAnnotations modified with
  | None, None => PatchAnnotations ∅
  | None, Some m => PatchAnnotations (Some <$> m)
  | Some _, None => PatchAnnotationsNull
  | Some o, Some m => PatchAnnotations (merge diffEntry o m)
  end.

Definition patchEntry (old : option string) (change : option (option string))
  : option string :=
  match change with
  | Some c => c
  | None => old
  end.

(** What the API server does with a patch. *)
Definition applyPatch (patch : Patch) (stored : Pod) : Pod :=
  match patch with
  | PatchAnnotationsNull => setAnnotations None stored
  | PatchAnnotations changes =>
      if decide (changes = ∅) then stored
      else setAnnotations
             (Some (merge patchEntry (default ∅ (Annotations stored)) changes))
             stored
  end.

(** ** The world outside the process *)

Inductive WatchEvent :=
  | PodEvent (phase : string)
      (* the server reports the watched pod, now in this phase *)
  | OtherEvent.
      (* an event whose Object is not a *v1.Pod: an error status, or the
         zero event read from a closed channel *)

Inductive ExecReply :=
  | ExecutorFails (msg : string)         (* remotecommand.NewSPDYExecutor fails *)
  | StreamFails (msg : string)           (* executor.Stream returns an error *)
  | StreamDone (stdout stderr : string). (* the remote process ran *)

Inductive Event :=
  | ReqCreate (pod : Pod)
  | ReqPatch (namespace name : string) (patch : Patch)
  | ReqDelete (namespace name : string)
  | ReqGet (namespace name : string)
  | ReqWatch (namespace name : string)
  | ExecOnPod (namespace name container : string) (command : list string)
  | CallProcess (status : string).

Record World := {
  store : gmap (string * string) Pod;
    (* the pods the API server holds, by namespace and name *)
  faults : list (option string);
    (* one entry per request sent to the API server, in order: [Some msg]
       makes the request fail with [msg] and leaves the store alone *)
  watches : list (list WatchEvent);
    (* one entry per watch opened: the events that arrive, each within the
       timeout of the one before; after the last one the timeout fires *)
  streams : list ExecReply;
    (* one entry per exec stream *)
  uuids : list string;
    (* the values of guuid.New().String() *)
  trace : list Event
    (* what the process did, oldest first *)
}.

(** Past the end of a script the environment is quiet: requests are served,
    watches report nothing, exec streams fail to connect, identifiers are
    empty. *)

Definition setStore (s : gmap (string * string) Pod) (w : World) : World :=
  {| store := s; faults := faults w; watches := watches w;
     streams := streams w; uuids := uuids w; trace := trace w |}.
Definition setFaults (f : list (option string)) (w : World) : World :=
  {| store := store w; faults := f; watches := watches w;
     streams := streams w; uuids := uuids w; trace := trace w |}.
Definition setWatches (ws : list (list WatchEvent)) (w : World) : World :=
  {| store := store w; faults := faults w; watches := ws;
     streams := streams w; uuids := uuids w; trace := trace w |}.
Definition setStreams (ss : list ExecReply) (w : World) : World :=
  {| store := store w; faults := faults w; watches := watches w;
     streams := ss; uuids := uuids w; trace := trace w |}.
Definition setUuids (us : list string) (w : World) : World :=
  {| store := store w; faults := faults w; watches := watches w;
     streams := streams w; uuids := us; trace := trace w |}.
Definition setTrace (t : list Event) (w : World) : World :=
  {| store := store w; faults := faults w; watches := watches w;
     streams := streams w; uuids := uuids w; trace := t |}.

(** ** The monad of Go calls *)

Inductive outcome (A : Type) :=
  | Ret (a : A)
  | Panic (msg : string).
Arguments Ret {A} a.
Arguments Panic {A} msg.

Definition Go (A : Type) : Type := World → outcome A * World.

#[export] Instance Go_ret : MRet Go := λ A a w, (Ret a, w).
#[export] Instance Go_bind : MBind Go := λ A B f m w,
  match m w with
  | (Ret a, w') => f a w'
  | (Panic msg, w') => (Panic msg, w')
  end.

Definition panic {A : Type} (msg : string) : Go A := λ w, (Panic msg, w).

Definition lift {A : Type} (o : outcome A) : Go A := λ w, (o, w).

(** A step given by what it does to the world. *)
Definition step {A : Type} (f : World → A * World) : Go A :=
  λ w, let '(a, w') := f w in (Ret a, w').

Definition emit (e : Event) : Go unit :=
  step (λ w, ((), setTrace (trace w ++ [e]) w)).

(** ** The client: [client.CoreV1().Pods(namespace)] *)

Module client.

Definition nextFault : Go (option string) := step (λ w,
  match faults w with
  | [] => (None, w)
  | f :: rest => (f, setFaults rest w)
  end).

Definition notFound (name : string) : string :=
  "pods " +:+ dquote +:+ name +:+ dquote +:+ " not found".

Definition alreadyExists (name : string) : string :=
  "pods " +:+ dquote +:+ name +:+ dquote +:+ " already exists".

Definition Create (pod : Pod) : Go error :=
  emit (ReqCreate pod);;
  fault ← nextFault;
  match fault with
  | Some msg => mret (Some msg)
  | None => step (λ w,
      match store w !! (Namespace pod, Name pod) with
      | Some _ => (Some (alreadyExists (Name pod)), w)
      | None =>
          (None, setStore (<[(Namespace pod, Name pod) := pod]> (store w)) w)
      end)
  end.

(** On failure the typed client hands back the zero value it allocated
    for the result. *)
Definition Get (namespace name : string) : Go (Pod * error) :=
  emit (ReqGet namespace name);;
  fault ← nextFault;
  match fault with
  | Some msg => mret (emptyPod, Some msg)
  | None => step (λ w,
      match store w !! (namespace, name) with
      | Some pod => ((pod, None), w)
      | None => ((emptyPod, Some (notFound name)), w)
      end)
  end.

Definition Delete (namespace name : string) : Go error :=
  emit (ReqDelete namespace name);;
  fault ← nextFault;
  match fault with
  | Some msg => mret (Some msg)
  | None => step (λ w,
      match store w !! (namespace, name) with
      | Some _ => (None, setStore (delete (namespace, name) (store w)) w)
      | None => (Some (notFound name), w)
      end)
  end.

(** A patch of a pod the server does not hold is refused, as the API
    server does.  (The fake clientset of the package's tests lets such a
    patch through without effect.) *)
Definition Patch (namespace name : string) (patch : Patch) : Go error :=
  emit (ReqPatch namespace name patch);;
  fault ← nextFault;
  match fault with
  | Some msg => mret (Some msg)
  | None => step (λ w,
      match store w !! (namespace, name) with
      | Some pod =>
          (None,
           setStore (<[(namespace, name) := applyPatch patch pod]> (store w)) w)
      | None => (Some (notFound name), w)
      end)
  end.

(** Opens a watch on the pod called [name]; the result stands for
    [watch.ResultChan()]. *)
Definition Watch (namespace name : string) : Go (list WatchEvent * error) :=
  emit (ReqWatch namespace name);;
  fault ← nextFault;
  match fault with
  | Some msg => mret ([], Some msg)
  | None => step (λ w,
      match watches w with
      | [] => (([], None), w)
      | events :: rest => ((events, None), setWatches rest w)
      end)
  end.

(** A pod event on the channel tells what the server has recorded. *)
Definition recorded (namespace name phase : string) : Go unit := step (λ w,
  ((), setStore (alter (setPhase phase) (namespace, name) (store w)) w)).

Definition nextStream : Go ExecReply := step (λ w,
  match streams w with
  | [] => (StreamFails "unable to upgrade connection", w)
  | r :: rest => (r, setStreams rest w)
  end).

End client.

(** [guuid.New().String()] *)
Definition newUUID : Go string := step (λ w,
  match uuids w with
  | [] => ("", w)
  | u :: rest => (u, setUuids rest w)
  end).

(** ** execute.go, controller.go: types *)

Record requestSpec := {
  privPodName : string;
  reqID : string
}.

Module cmdArgs.
Record t := {
  PrivPodTimeout : Z;
  Namespace : string;
  Image : string;
  Serviceaccount : string
}.
End cmdArgs.

(** ** helper.go *)

(** [applyPatchForAnnotation]: [newPod] and [modifiedPod] are the two
    marshalled snapshots.  Marshalling a pod and diffing two marshalled
    pods do not fail. *)
Definition applyPatchForAnnotation (namespace : string)
    (newPod modifiedPod : Pod) (newPodResource : Pod) (rs : requestSpec)
  : Go error :=
  let patch := CreateTwoWayMergePatch newPod modifiedPod in
  err ← client.Patch namespace (Name newPodResource) patch;
  match err with
  | Some e =>
      mret (Some ("failed to patch annotation to pod " +:+ Name newPodResource
                  +:+ ": " +:+ e))
  | None => mret None
  end.

(** [applyAnnotationUpdateOnPod]: returns the error and [newPodResource]
    as the call leaves it.  The loop ranges over a map: the assignments are
    to distinct keys. *)
Definition applyAnnotationUpdateOnPod (namespace : string)
    (addOrUpdateAnnotations : gmap string string)
    (newPodResource : Pod) (rs : requestSpec) : Go (error * Pod) :=
  let newPod := newPodResource in
  let annotations := default ∅ (Annotations newPodResource) in
  let annotations :=
    map_fold (λ key value acc, <[key := value]> acc)
             annotations addOrUpdateAnnotations in
  let newPodResource := setAnnotations (Some annotations) newPodResource in
  let modifiedPod := newPodResource in
  err ← applyPatchForAnnotation namespace newPod modifiedPod newPodResource rs;
  mret (err, newPodResource).

(** The error of [applyAnnotationDeletionOnPod] at a missing key. *)
Definition doesNotExist (key : string) : string :=
  "annotation " +:+ key +:+ " to be deleted does not exist".

(** The loop of [applyAnnotationDeletionOnPod] over [deleteAnnotations]:
    [inl (key, m)] when it returns early at [key] with the map as [m],
    [inr m] when it runs to the end and leaves the map as [m].  [delete] on
    a nil map does nothing. *)
Fixpoint deleteLoop (deleteAnnotations : list string)
    (annotations : option (gmap string string))
  : string * option (gmap string string) + option (gmap string string) :=
  match deleteAnnotations with
  | [] => inr annotations
  | key :: rest =>
      if decide (default "" (annotations ≫= (.!! key)) = "")
      then inl (key, annotations)
      else deleteLoop rest (delete key <$> annotations)
  end.

(** [applyAnnotationDeletionOnPod] *)
Definition applyAnnotationDeletionOnPod (namespace : string)
    (deleteAnnotations : list string)
    (newPodResource : Pod) (rs : requestSpec) : Go (error * Pod) :=
  let newPod := newPodResource in
  match deleteLoop deleteAnnotations (Annotations newPodResource) with
  | inl (key, annotations) =>
      mret (Some (doesNotExist key), setAnnotations annotations newPodResource)
  | inr annotations =>
      let newPodResource := setAnnotations annotations newPodResource in
      let modifiedPod := newPodResource in
      err ← applyPatchForAnnotation namespace newPod modifiedPod newPodResource rs;
      mret (err, newPodResource)
  end.

(** [getNodeName] *)
Definition getNodeName (pod : Pod) : string * error :=
  let nodeName := NodeName pod in
  if decide (nodeName = "")
  then ("", Some ("no node name detected for target pod: " +:+ Name pod))
  else (nodeName, None).

Section privexecutor.

(** The package-level variable [CmdArgs], set once before the controller
    runs. *)
Variable CmdArgs : cmdArgs.t.

(** ** privilege_pod.go *)

(** [privilegedPodSpec] *)
Definition privilegedPodSpec (podName nodeName namespace : string) : Pod :=
  let volumeMounts :=
    [ {| vmName := "docker-sock"; MountPath := "/var/run/docker.sock" |} ] in
  let privilegedContainer :=
    {| cName := constants.PrivilegeContainer;
       Image := cmdArgs.Image CmdArgs;
       ImagePullPolicy := "Always";
       Privileged := Some true;
       VolumeMounts := volumeMounts |} in
  {| Name := podName;
     Namespace := namespace;
     Annotations := None;
     ServiceAccountName := cmdArgs.Serviceaccount CmdArgs;
     HostPID := true;
     NodeName := nodeName;
     RestartPolicy := "Never";
     Containers := [privilegedContainer];
     Volumes := [ {| vName := "docker-sock";
                     HostPath := "/var/run/docker.sock";
                     HostPathType := "File" |} ];
     Phase := "";
     InitContainerStatuses := [];
     ContainerStatuses := [] |}.

(** [createPod] *)
Definition createPod (pod : Pod) : Go error :=
  err ← client.Create pod;
  match err with
  | Some e =>
      mret (Some ("failed to create pod " +:+ Name pod +:+ " on node "
                  +:+ NodeName pod +:+ ": " +:+ e))
  | None => mret None
  end.

(** [deletePod] *)
Definition deletePod (namespace : string) (rs : requestSpec) : Go error :=
  err ← client.Delete namespace (privPodName rs);
  match err with
  | Some e =>
      mret (Some ("failed to delete pod " +:+ privPodName rs +:+ ": " +:+ e))
  | None => mret None
  end.

(** The error of [createPrivilegedPod] when the timeout fires; [p] is what
    the final [Get] returned. *)
Definition notRunning (p : Pod) : string :=
  "privileged pod " +:+ Name p +:+ " is not running after "
  +:+ fmtInt (cmdArgs.PrivPodTimeout CmdArgs)
  +:+ " seconds, it is currently in " +:+ Phase p +:+ " phase".

(** The [for { select { ... } }] loop of [createPrivilegedPod] over the
    events the channel delivers.  An event that is not a pod leaves the
    type assertion with a nil pointer, which the next line dereferences.
    When the events run out, [time.After] fires.  (A watch that went on
    for ever reporting phases other than [Running], each within the
    timeout, would keep the loop going for ever; the scripts of the
    environment are finite.) *)
Fixpoint awaitRunning (namespace : string) (rs : requestSpec)
    (events : list WatchEvent) : Go error :=
  match events with
  | PodEvent phase :: rest =>
      client.recorded namespace (privPodName rs) phase;;
      if decide (phase = PodRunning) then mret None
      else awaitRunning namespace rs rest
  | OtherEvent :: _ =>
      panic "invalid memory address or nil pointer dereference"
  | [] =>
      '(p, _) ← client.Get namespace (privPodName rs);
      mret (Some (notRunning p))
  end.

(** [createPrivilegedPod] *)
Definition createPrivilegedPod (namespace nodeName : string)
    (rs : requestSpec) : Go error :=
  let pod := privilegedPodSpec (privPodName rs) nodeName namespace in
  err ← createPod pod;
  match err with
  | Some e => mret (Some e)
  | None =>
      '(events, err) ← client.Watch namespace (privPodName rs);
      match err with
      | Some e =>
          mret (Some ("error starting watcher for privilege pod: " +:+ e))
      | None => awaitRunning namespace rs events
      end
  end.

(** ** remote_command.go, remote_exec.go *)

(** The fields of [remoteCmdExecutor] that are not client handles. *)
Record remoteCmdExecutor := {
  namespace : string;
  rceRequestSpec : requestSpec;
  container : string;
  containerID : string;
  privilegeContainer : string
}.

(** [execCommandOnPod]: what is on stderr is logged and nothing else. *)
Definition execCommandOnPod (rce : remoteCmdExecutor) (command : list string)
  : Go (string * error) :=
  emit (ExecOnPod (namespace rce) (privPodName (rceRequestSpec rce))
                  (privilegeContainer rce) command);;
  reply ← client.nextStream;
  match reply with
  | ExecutorFails msg =>
      mret ("", Some ("command " +:+ fmtSlice command
                      +:+ " failed to set SPDY executor: " +:+ msg))
  | StreamFails msg =>
      mret ("", Some ("command " +:+ fmtSlice command +:+ " failed: " +:+ msg))
  | StreamDone stdout _ => mret (stdout, None)
  end.

(** [getPID] *)
Definition getPID (rce : remoteCmdExecutor) : Go (string * error) :=
  let command :=
    ["docker"; "inspect"; "--format"; "'{{ .State.Pid }}'"; containerID rce] in
  '(pid, err) ← execCommandOnPod rce command;
  match err with
  | Some e =>
      mret ("", Some ("unable to retrieve PID for container " +:+ container rce
                      +:+ " with container ID " +:+ containerID rce
                      +:+ ": " +:+ e))
  | None =>
      match slice pid 1 (len pid - 2) with
      | None => panic "slice bounds out of range"
      | Some pid => mret (pid, None)
      end
  end.

(** The value of [commandToExecute] in [executeNsenterCommand]. *)
Definition commandToExecute (pid : string) (command : list string)
  : list string :=
  ["nsenter"; "--target"; pid; "--ipc"; "--uts"; "--net"; "--pid"] ++ command.

(** [executeNsenterCommand] *)
Definition executeNsenterCommand (rce : remoteCmdExecutor)
    (command : list string) : Go (string * error) :=
  '(pid, err) ← getPID rce;
  match err with
  | Some e => mret ("", Some ("unable to execute command: " +:+ e))
  | None => execCommandOnPod rce (commandToExecute pid command)
  end.

(** ** execute.go *)

(** [updatePrivilegedCommandExecutorAnnotation] *)
Definition updatePrivilegedCommandExecutorAnnotation (namespace : string)
    (newPodResource : Pod) (status : string) (rs : requestSpec)
  : Go (error * Pod) :=
  let m := <[constants.AnnotationExecuteStatus := status]> ∅ in
  applyAnnotationUpdateOnPod namespace m newPodResource rs.

(** [deletePrivilegedCommandExecutorAnnotation] *)
Definition deletePrivilegedCommandExecutorAnnotation (namespace : string)
    (newPodResource : Pod) (rs : requestSpec) : Go (error * Pod) :=
  applyAnnotationDeletionOnPod namespace
    [constants.AnnotationExecuteStatus; constants.AnnotationExecuteContainer;
     constants.AnnotationExecuteAction]
    newPodResource rs.

(** The loop of [handleActiveStatus] that detects the container ID:
    every entry of [Status.ContainerStatuses] named [target] overwrites
    [containerID] with its [ContainerID[9:]]; [None] is the panic of an
    out-of-range slice. *)
Fixpoint containerIDLoop (statuses : list ContainerStatus)
    (target : string) (containerID : string) : option string :=
  match statuses with
  | [] => Some containerID
  | p :: rest =>
      if decide (csName p = target) then
        match sliceFrom (ContainerID p) 9 with
        | None => None
        | Some id => containerIDLoop rest target id
        end
      else containerIDLoop rest target containerID
  end.

(** The error of [handleActiveStatus] when no container ID is found. *)
Definition noMatchingContainerID (pod : Pod) : string :=
  "no matching container ID for container "
  +:+ annotation pod constants.AnnotationExecuteContainer
  +:+ " on pod " +:+ Name pod +:+ " under namespace " +:+ Namespace pod.

(** The step "Detect container ID of target container" of
    [handleActiveStatus]: the loop and the check that follows it.  The
    result is the container ID and the error the handler returns at this
    point, if any. *)
Definition detectContainerID (newPodResource : Pod) : outcome (string * error) :=
  let target := annotation newPodResource constants.AnnotationExecuteContainer in
  match containerIDLoop (ContainerStatuses newPodResource) target "" with
  | None => Panic "slice bounds out of range"
  | Some containerID =>
      if decide (containerID = "") then
        Ret (containerID, Some (noMatchingContainerID newPodResource))
      else Ret (containerID, None)
  end.

(** [handleActiveStatus]; [oldPodResource] only decides a log line. *)
Definition handleActiveStatus (oldPodResource : option Pod)
    (newPodResource : Pod) (rs : requestSpec) : Go (error * Pod) :=
  '(err, newPodResource) ←
    updatePrivilegedCommandExecutorAnnotation (Namespace newPodResource)
      newPodResource constants.StatusInProgress rs;
  match err with
  | Some e =>
      mret (Some ("failed to update " +:+ constants.AnnotationExecuteStatus
                  +:+ " annotation to " +:+ constants.StatusInProgress
                  +:+ ": " +:+ e), newPodResource)
  | None =>
  '(containerID, err) ← lift (detectContainerID newPodResource);
  match err with
  | Some e => mret (Some e, newPodResource)
  | None =>
  let '(nodeName, err) := getNodeName newPodResource in
  match err with
  | Some e =>
      mret (Some ("failed to detect target node: %s" +:+ e), newPodResource)
  | None =>
  err ← createPrivilegedPod (cmdArgs.Namespace CmdArgs) nodeName rs;
  match err with
  | Some e => mret (Some e, newPodResource)
  | None =>
  let rce :=
    {| namespace := cmdArgs.Namespace CmdArgs;
       rceRequestSpec := rs;
       container := annotation newPodResource constants.AnnotationExecuteContainer;
       containerID := containerID;
       privilegeContainer := constants.PrivilegeContainer |} in
  let action := annotation newPodResource constants.AnnotationExecuteAction in
  let actionToExec := Fields action in
  '(output, err) ← executeNsenterCommand rce actionToExec;
  match err with
  | Some e => mret (Some ("failed to execute command: " +:+ e), newPodResource)
  | None =>
  '(err, newPodResource) ←
    updatePrivilegedCommandExecutorAnnotation (Namespace newPodResource)
      newPodResource constants.StatusDone rs;
  match err with
  | Some e =>
      mret (Some ("failed to update " +:+ constants.AnnotationExecuteStatus
                  +:+ " annotation to " +:+ constants.StatusDone
                  +:+ ": " +:+ e), newPodResource)
  | None => mret (None, newPodResource)
  end end end end end end.

(** [handleDoneStatus]; the one-second sleep takes no part in the
    result. *)
Definition handleDoneStatus (oldPodResource : option Pod)
    (newPodResource : Pod) (rs : requestSpec) : Go (error * Pod) :=
  err ← deletePod (cmdArgs.Namespace CmdArgs) rs;
  match err with
  | Some e => mret (Some e, newPodResource)
  | None =>
      '(err, newPodResource) ←
        deletePrivilegedCommandExecutorAnnotation (Namespace newPodResource)
          newPodResource rs;
      match err with
      | Some e =>
          mret (Some ("failed to delete annotations "
                      +:+ constants.AnnotationExecuteStatus +:+ ", "
                      +:+ constants.AnnotationExecuteContainer +:+ " and "
                      +:+ constants.AnnotationExecuteAction +:+ ": " +:+ e),
                newPodResource)
      | None => mret (None, newPodResource)
      end
  end.

Definition unableToAct (status cause : string) : string :=
  "unable to act upon annotation " +:+ constants.AnnotationExecuteStatus
  +:+ " change to " +:+ status +:+ ": " +:+ cause.

(** [Process]; every entry is noted in the trace. *)
Definition Process (oldPodResource : option Pod) (newPodResource : Pod)
    (rs : requestSpec) : Go (error * Pod) :=
  let status := annotation newPodResource constants.AnnotationExecuteStatus in
  emit (CallProcess status);;
  if decide (status = constants.StatusActive) then
    '(err, newPodResource) ← handleActiveStatus oldPodResource newPodResource rs;
    match err with
    | Some e => mret (Some (unableToAct constants.StatusActive e), newPodResource)
    | None => mret (None, newPodResource)
    end
  else if decide (status = constants.StatusDone) then
    '(err, newPodResource) ← handleDoneStatus oldPodResource newPodResource rs;
    match err with
    | Some e => mret (Some (unableToAct constants.StatusDone e), newPodResource)
    | None => mret (None, newPodResource)
    end
  else mret (None, newPodResource).

(** ** controller.go *)

(** The condition under which [handleUpdate] looks at an update. *)
Definition qualifies (newPodResource : Pod) : bool :=
  match Annotations newPodResource with
  | None => false
  | Some _ =>
      negb (bool_decide
              (annotation newPodResource constants.AnnotationExecuteContainer = ""))
      && negb (bool_decide
                 (annotation newPodResource constants.AnnotationExecuteAction = ""))
      && negb (bool_decide
                 (annotation newPodResource constants.AnnotationExecuteStatus = ""))
  end.

(** The body of the loop of [handleUpdate] at the key
    [constants.AnnotationExecuteStatus].  Next to the pod it tells
    whether it has removed the entry of that key and created it again:
    [Process] never adds a key it has removed, so this is the case when
    the entry is gone after [Process] and the error path writes the
    status [error]. *)
Definition atStatusKey (oldPodResource newPodResource : Pod)
  : Go (Pod * bool) :=
  let privPodName :=
    "priv_" +:+ Name newPodResource +:+ "_"
    +:+ annotation newPodResource constants.AnnotationExecuteContainer in
  let privPodName := replaceUnderscores privPodName in
  let privPodName := ToLower privPodName in
  uuid ← newUUID;
  let currRequestSpec := {| privPodName := privPodName; reqID := uuid |} in
  '(err, newPodResource) ←
    Process (Some oldPodResource) newPodResource currRequestSpec;
  match err with
  | None => mret (newPodResource, false)
  | Some _ =>
      let removed :=
        bool_decide (Annotations newPodResource
                       ≫= (.!! constants.AnnotationExecuteStatus) = None) in
      _ ← deletePod (cmdArgs.Namespace CmdArgs) currRequestSpec;
      '(_, newPodResource) ←
        updatePrivilegedCommandExecutorAnnotation (Namespace newPodResource)
          newPodResource constants.StatusError currRequestSpec;
      mret (newPodResource, removed)
  end.

(** The loop [for podAnnotationKey := range newPodResource.Annotations]
    of [handleUpdate], whose body acts at one key only and changes the
    map it ranges over.  The Go language specification, on range loops
    over maps: "If a map entry that has not yet been reached is removed
    during iteration, the corresponding iteration value will not be
    produced. If a map entry is created during iteration, that entry may
    be produced during the iteration or may be skipped."  The status entry
    is present when the loop starts ([qualifies]) and nothing changes the
    map before the loop reaches it, so the body runs at it once.  An entry
    the body creates may be produced later on: [produced] lists the
    choices of the run time for such entries, [true] for produced, and an
    exhausted list skips. *)
Fixpoint rangeAnnotations (produced : list bool)
    (oldPodResource newPodResource : Pod) : Go Pod :=
  '(newPodResource, created) ← atStatusKey oldPodResource newPodResource;
  match produced with
  | true :: rest =>
      if created : bool
      then rangeAnnotations rest oldPodResource newPodResource
      else mret newPodResource
  | _ => mret newPodResource
  end.

(** [handleUpdate] *)
Definition handleUpdate (produced : list bool) (oldObj newObj : Pod)
  : Go Pod :=
  let oldPodResource := oldObj in
  let newPodResource := newObj in
  if qualifies newPodResource
  then rangeAnnotations produced oldPodResource newPodResource
  else mret newPodResource.

End privexecutor.

(** How often [Process] was entered. *)
Definition isCallProcess (e : Event) : bool :=
  match e with
  | CallProcess _ => true
  | _ => false
  end.

Definition processCalls (t : list Event) : nat :=
  length (List.filter isCallProcess t).

(** The commands handed to [execCommandOnPod], in order. *)
Definition execCommands (t : list Event) : list (list string) :=
  omap (λ e, match e with
             | ExecOnPod _ _ _ command => Some command
             | _ => None
             end) t.


(** * Worlds and pods of the statements *)

(** The world after a call of [execCommandOnPod] that consumed one reply. *)
Definition afterExec (rce : remoteCmdExecutor) (command : list string)
    (rest : list ExecReply) (w : World) : World :=
  setStreams rest
    (setTrace (trace w ++ [ExecOnPod (namespace rce)
                             (privPodName (rceRequestSpec rce))
                             (privilegeContainer rce) command]) w).

(** The world once a request has been noted and its fault consumed. *)
Definition requested (e : Event) (w : World) : World :=
  setFaults (tail (faults w)) (setTrace (trace w ++ [e]) w).

(** The pod object after [applyAnnotationUpdateOnPod]. *)
Definition upserted (upd : gmap string string) (pod : Pod) : Pod :=
  setAnnotations (Some (upd ∪ default ∅ (Annotations pod))) pod.

(** A call is quiet when it does not enter [Process]. *)
Definition quiet {A : Type} (m : Go A) : Prop :=
  ∀ w, processCalls (trace (m w).2) = processCalls (trace w).

(** ** The pods and settings of the package's tests *)

Module test.

(** What [TestProcess] and its siblings set [CmdArgs] to. *)
Definition CmdArgs : cmdArgs.t :=
  {| cmdArgs.PrivPodTimeout := 3;
     cmdArgs.Namespace := "default";
     cmdArgs.Image := "image";
     cmdArgs.Serviceaccount := "" |}.

Definition currRequest : requestSpec :=
  {| privPodName := "priv-test-pod-target-container";
     reqID := "1b4e28ba-2fa1-11d2-883f-0016d3cca427" |}.

Definition initAnnotations : gmap string string :=
  {[ "init-annotation1" := "init-value1"; "init-annotation2" := "init-value2" ]}.

(** [targetPodSpecWithNode] with the given annotations and statuses. *)
Definition pod (annotations : gmap string string)
    (initStatuses statuses : list ContainerStatus) : Pod :=
  {| Name := "test-pod"; Namespace := "default";
     Annotations := Some annotations;
     ServiceAccountName := ""; HostPID := false; NodeName := "targetNode";
     RestartPolicy := "";
     Containers := [ {| cName := "target-container"; Image := "image";
                        ImagePullPolicy := "Always"; Privileged := None;
                        VolumeMounts := [] |} ];
     Volumes := [];
     Phase := "";
     InitContainerStatuses := initStatuses;
     ContainerStatuses := statuses |}.

Definition containerStatus : ContainerStatus :=
  {| csName := "target-container"; ContainerID := "docker://containerid" |}.

(** The annotations a request writes on top of the initial ones. *)
Definition requestAnnotations (status : string) : gmap string string :=
  <[constants.AnnotationExecuteStatus := status]>
    (<[constants.AnnotationExecuteContainer := "target-container"]>
       (<[constants.AnnotationExecuteAction := "target-action"]> initAnnotations)).

(** [targetPodSpecWithNode] before and after a request is written on it. *)
Definition targetPodSpecWithNode : Pod := pod initAnnotations [] [containerStatus].

Definition requested (status : string) : Pod :=
  pod (requestAnnotations status) [] [containerStatus].

(** The target container is an init container: its status is among the
    init-container statuses only. *)
Definition initContainerTarget : Pod :=
  pod (requestAnnotations constants.StatusActive) [containerStatus] [].

(** The target container has not started: its status entry is there, its
    [ContainerID] is still empty. *)
Definition waitingTarget : Pod :=
  pod (requestAnnotations constants.StatusActive) []
      [ {| csName := "target-container"; ContainerID := "" |} ].

(** The privileged pod [TestHandleDoneStatus] creates by hand. *)
Definition privPod : Pod :=
  {| Name := "priv-test-pod-target-container"; Namespace := "default";
     Annotations := None;
     ServiceAccountName := ""; HostPID := false; NodeName := "targetNode";
     RestartPolicy := ""; Containers := []; Volumes := [];
     Phase := ""; InitContainerStatuses := []; ContainerStatuses := [] |}.

(** A cluster that holds the given pods, and an environment that follows
    the given scripts. *)
Definition world (pods : list Pod) (faults : list (option string))
    (watches : list (list WatchEvent)) (streams : list ExecReply) : World :=
  {| store := list_to_map ((λ p, ((Namespace p, Name p), p)) <$> pods);
     faults := faults; watches := watches; streams := streams;
     uuids := []; trace := [] |}.

(** The executor [handleActiveStatus] sets up for the test pod. *)
Definition rce : remoteCmdExecutor :=
  {| namespace := "default";
     rceRequestSpec := currRequest;
     container := "target-container";
     containerID := "containerid";
     privilegeContainer := constants.PrivilegeContainer |}.

(** The line [docker inspect] prints for the format ['{{ .State.Pid }}']
    handed over without a shell: the PID between the quotes of the format,
    and a line feed. *)
Definition pidLine : string := "'28400'" +:+ String "010"%char "".

(** A done request whose action annotation is there with an empty value. *)
Definition emptyAction : Pod :=
  pod (<[constants.AnnotationExecuteAction := ""]>
         (requestAnnotations constants.StatusDone))
      [] [containerStatus].

(** An environment in which the inspection prints [pidLine] and the user's
    command prints a line. *)
Definition execWorld : World :=
  world [privPod] [] [] [StreamDone pidLine ""; StreamDone "Saved corefile core.1" ""].

(** An environment in which the inspection prints two bytes only. *)
Definition shortOutputWorld : World :=
  world [privPod] [] [] [StreamDone "''" ""].

End test.

(** ** Further notions the properties are stated with *)

(** The name [handleUpdate] derives for the privileged pod from the name of
    the target pod and the container annotation. *)
Definition derivedPrivPodName (podName containerName : string) : string :=
  ToLower (replaceUnderscores ("priv_" +:+ podName +:+ "_" +:+ containerName)).

(** The bytes of a string. *)
Definition bytes (s : string) : list ascii := String.list_ascii_of_string s.

(** The string is ASCII: every byte is below [utf8.RuneSelf] (0x80).  On
    such strings [strings.Fields] and [strings.ToLower] work byte by byte,
    as [Fields] and [ToLower] do. *)
Definition isASCII (s : string) : bool :=
  forallb (λ c, bool_decide (nat_of_ascii c < 128)%nat) (bytes s).

(** No byte of the string is white space. *)
Definition spaceFree (s : string) : Prop :=
  Forall (λ c, isSpace c = false) (bytes s).

(** The byte is an upper-case letter A to Z. *)
Definition isUpper (c : ascii) : Prop :=
  (65 ≤ nat_of_ascii c ∧ nat_of_ascii c ≤ 90)%nat.

(** The three keys of the protocol. *)
Definition protocolKeys : list string :=
  [constants.AnnotationExecuteStatus; constants.AnnotationExecuteContainer;
   constants.AnnotationExecuteAction].

(** [isPrivileged] of privilege_pod_test.go.  [initContainers] stands for
    [pod.Spec.InitContainers], which [Pod] does not carry; a nil
    [SecurityContext] and a nil [Privileged] are both [None]. *)
Definition anyPrivileged (containers : list Container) : bool :=
  existsb (λ c, match Privileged c with
                | Some true => true
                | _ => false
                end) containers.

Definition isPrivileged (initContainers : list Container) (pod : Pod) : bool :=
  anyPrivileged initContainers || anyPrivileged (Containers pod).

(** A watch event that reports the pod in a phase other than [Running]. *)
Definition notYetRunning (e : WatchEvent) : Prop :=
  ∃ phase, e = PodEvent phase ∧ phase ≠ PodRunning.

(** The phase the last of the events reports, [phase] if there is none. *)
Fixpoint lastPhase (phase : string) (events : list WatchEvent) : string :=
  match events with
  | [] => phase
  | PodEvent phase' :: rest => lastPhase phase' rest
  | OtherEvent :: rest => lastPhase phase rest
  end.

(** The world in which [createPrivilegedPod] starts its loop when the
    creation and the watch request were served. *)
Definition watching (args : cmdArgs.t) (namespace nodeName : string)
    (rs : requestSpec) (w : World) : World :=
  let pod := privilegedPodSpec args (privPodName rs) nodeName namespace in
  setWatches (tail (watches w))
    (requested (ReqWatch namespace (privPodName rs))
       (setStore (<[(namespace, privPodName rs) := pod]> (store w))
          (requested (ReqCreate pod) w))).


(** * Properties *)

(** ** Running the monad *)

Lemma run_bind {A B : Type} (m : Go A) (f : A → Go B) (w : World) :
  (m ≫= f) w =
  match m w with
  | (Ret a, w') => f a w'
  | (Panic msg, w') => (Panic msg, w')
  end.
Proof. reflexivity. Qed.

Lemma run_ret {A : Type} (a : A) (w : World) : (mret a : Go A) w = (Ret a, w).
Proof. reflexivity. Qed.

Lemma run_emit (e : Event) (w : World) :
  emit e w = (Ret (), setTrace (trace w ++ [e]) w).
Proof. reflexivity. Qed.

Lemma run_lift {A : Type} (o : outcome A) (w : World) : lift o w = (o, w).
Proof. reflexivity. Qed.

Lemma run_panic {A : Type} (msg : string) (w : World) :
  @panic A msg w = (Panic msg, w).
Proof. reflexivity. Qed.

(** Runs the binds, returns and trace notes at the head of a call. *)
Ltac go :=
  repeat first
    [ rewrite run_bind | rewrite run_ret | rewrite run_emit
    | rewrite run_lift | rewrite run_panic | progress cbn beta iota ].

Lemma execCommandOnPod_reply rce command w reply rest :
  streams w = reply :: rest →
  execCommandOnPod rce command w =
  (Ret match reply with
       | ExecutorFails msg =>
           ("", Some ("command " +:+ fmtSlice command
                      +:+ " failed to set SPDY executor: " +:+ msg))
       | StreamFails msg =>
           ("", Some ("command " +:+ fmtSlice command +:+ " failed: " +:+ msg))
       | StreamDone stdout _ => (stdout, None)
       end,
   afterExec rce command rest w).
Proof.
  intros Hs. unfold execCommandOnPod, afterExec. go.
  unfold client.nextStream, step. cbn [streams setTrace]. rewrite Hs.
  destruct reply; go; reflexivity.
Qed.

Lemma trace_afterExec rce command rest w :
  trace (afterExec rce command rest w) =
  trace w ++ [ExecOnPod (namespace rce) (privPodName (rceRequestSpec rce))
                (privilegeContainer rce) command].
Proof. reflexivity. Qed.

Lemma execCommandOnPod_trace rce command w :
  trace (snd (execCommandOnPod rce command w)) =
  trace w ++ [ExecOnPod (namespace rce) (privPodName (rceRequestSpec rce))
                (privilegeContainer rce) command].
Proof.
  unfold execCommandOnPod. go. unfold client.nextStream, step.
  cbn [streams setTrace]. destruct (streams w) as [|[] rest]; go; reflexivity.
Qed.

(** ** Slices of strings *)

Lemma append_nil t : "" +:+ t = t.
Proof. reflexivity. Qed.

Lemma append_String a s t : String a s +:+ t = String a (s +:+ t).
Proof. reflexivity. Qed.

Lemma len_String a s : len (String a s) = len s + 1.
Proof. unfold len. cbn [String.length]. lia. Qed.

Lemma len_nonneg s : 0 ≤ len s.
Proof. unfold len. lia. Qed.

Lemma len_app s t : len (s +:+ t) = len s + len t.
Proof.
  induction s as [|a s IH].
  - rewrite append_nil. unfold len. cbn. lia.
  - rewrite append_String, !len_String, IH. lia.
Qed.

Lemma substring_prefix s t :
  String.substring 0 (String.length s) (s +:+ t) = s.
Proof.
  induction s as [|a s IH]; [by destruct t|].
  rewrite append_String. cbn [String.length String.substring]. by rewrite IH.
Qed.

(** A string of two bytes or more ends in two bytes. *)
Lemma two_last_bytes s :
  2 ≤ len s → ∃ t b c, s = t +:+ String b (String c "").
Proof.
  induction s as [|a s IH]; [unfold len; cbn; lia|].
  rewrite len_String. intros Hlen.
  destruct s as [|b s]; [unfold len in Hlen; cbn in Hlen; lia|].
  destruct s as [|c s].
  - by exists "", a, b.
  - destruct IH as (t & b' & c' & Ht).
    { rewrite !len_String. pose proof (len_nonneg s). lia. }
    exists (String a t), b', c'. rewrite append_String. by rewrite <- Ht.
Qed.

Lemma slice_trim a pid b c :
  let s := String a (pid +:+ String b (String c "")) in
  slice s 1 (len s - 2) = Some pid.
Proof.
  intros s. unfold slice.
  assert (Hlen : len s = len pid + 3).
  { unfold s. rewrite len_String, len_app, !len_String. unfold len at 2. cbn. lia. }
  pose proof (len_nonneg pid).
  rewrite Hlen.
  replace ((0 <=? 1) && (1 <=? len pid + 3 - 2) && (len pid + 3 - 2 <=? len pid + 3))
    with true by (symmetry; rewrite !andb_true_iff, !Z.leb_le; lia).
  f_equal. unfold s.
  replace (Z.to_nat (len pid + 3 - 2 - 1)) with (String.length pid)
    by (unfold len; lia).
  change (Z.to_nat 1) with 1%nat. cbn [String.substring].
  apply substring_prefix.
Qed.

Lemma slice_short s : len s < 3 → slice s 1 (len s - 2) = None.
Proof.
  intros Hlen. unfold slice.
  replace (1 <=? len s - 2) with false by (symmetry; apply Z.leb_gt; lia).
  by rewrite andb_false_r.
Qed.

(** ** PID resolution and the namespace-entry command *)

(** C10. [getPID] cuts the first byte and the last two bytes off the
    standard output of the inspection command, and this is defined from
    three bytes on: when the stream succeeds with three bytes or more,
    [getPID] returns what lies between the first byte and the last two;
    when it succeeds with fewer, the slice expression is out of range and
    [getPID], and [executeNsenterCommand] with it, panics. *)
Theorem C10_getPID_defined_from_three_bytes
    (rce : remoteCmdExecutor) (w : World)
    (stdout stderr : string) (rest : list ExecReply) :
  streams w = StreamDone stdout stderr :: rest →
  let command :=
    ["docker"; "inspect"; "--format"; "'{{ .State.Pid }}'"; containerID rce] in
  let w' := afterExec rce command rest w in
  (3 ≤ len stdout →
     ∃ a pid b c,
       stdout = String a (pid +:+ String b (String c "")) ∧
       getPID rce w = (Ret (pid, None), w'))
  ∧ (len stdout < 3 →
       getPID rce w = (Panic "slice bounds out of range", w') ∧
       ∀ ts, executeNsenterCommand rce ts w
             = (Panic "slice bounds out of range", w')).
Proof.
  intros Hs command w'.
  assert (Hrun : getPID rce w =
                 match slice stdout 1 (len stdout - 2) with
                 | None => (Panic "slice bounds out of range", w')
                 | Some pid => (Ret (pid, None), w')
                 end).
  { unfold getPID. rewrite run_bind.
    rewrite (execCommandOnPod_reply _ _ _ _ _ Hs).
    fold command. fold w'. by destruct (slice stdout 1 (len stdout - 2)). }
  split.
  - intros Hlen.
    destruct stdout as [|a s]; [unfold len in Hlen; cbn in Hlen; lia|].
    rewrite len_String in Hlen.
    destruct (two_last_bytes s) as (pid & b & c & ->); [lia|].
    exists a, pid, b, c. split; [done|].
    rewrite Hrun. by rewrite (slice_trim a pid b c).
  - intros Hlen. rewrite Hrun, (slice_short _ Hlen). split; [done|].
    intros ts. unfold executeNsenterCommand. rewrite run_bind.
    by rewrite Hrun, (slice_short _ Hlen).
Qed.

(** C5. Once [getPID] has resolved the PID [p], the command that
    [executeNsenterCommand] hands to [execCommandOnPod] is
    [nsenter --target p --ipc --uts --net --pid] followed by the tokens it
    was given, in their order; a token [--mount] occurs in it only where
    [p] or one of the given tokens is [--mount]. *)
Theorem C5_nsenter_command_vector
    (rce : remoteCmdExecutor) (ts : list string) (p : string) (w w1 : World) :
  getPID rce w = (Ret (p, None), w1) →
  ∃ w2,
    snd (executeNsenterCommand rce ts w) = w2 ∧
    trace w2 =
      trace w1 ++
      [ExecOnPod (namespace rce) (privPodName (rceRequestSpec rce))
         (privilegeContainer rce)
         (["nsenter"; "--target"; p; "--ipc"; "--uts"; "--net"; "--pid"] ++ ts)]
    ∧ ("--mount" ∈ commandToExecute p ts ↔ p = "--mount" ∨ "--mount" ∈ ts).
Proof.
  intros Hpid. eexists. split; [reflexivity|]. split.
  - unfold executeNsenterCommand. rewrite run_bind, Hpid.
    apply execCommandOnPod_trace.
  - unfold commandToExecute. rewrite elem_of_app, !elem_of_cons, elem_of_nil.
    split.
    + intros [H|H]; [left|by right].
      repeat (destruct H as [H|H]; [first [congruence | done]|]). done.
    + intros [->|H]; [left|by right]. tauto.
Qed.

(** ** Requests to the API server *)

Lemma run_nextFault w :
  client.nextFault w =
  (Ret (default None (head (faults w))), setFaults (tail (faults w)) w).
Proof.
  unfold client.nextFault, step. destruct w as [s [|f fs] ws ss us t]; reflexivity.
Qed.

Lemma run_step {A : Type} (f : World → A * World) w :
  step f w = (Ret (f w).1, (f w).2).
Proof. unfold step. by destruct (f w). Qed.

Lemma store_requested e w : store (requested e w) = store w.
Proof. reflexivity. Qed.

Lemma run_Patch namespace name patch w :
  client.Patch namespace name patch w =
  let w1 := requested (ReqPatch namespace name patch) w in
  match default None (head (faults w)) with
  | Some msg => (Ret (Some msg), w1)
  | None =>
      match store w !! (namespace, name) with
      | Some pod =>
          (Ret None,
           setStore (<[(namespace, name) := applyPatch patch pod]> (store w)) w1)
      | None => (Ret (Some (client.notFound name)), w1)
      end
  end.
Proof.
  unfold client.Patch. go. rewrite run_nextFault. cbn [faults setTrace].
  destruct (default None (head (faults w))); go; [reflexivity|].
  rewrite run_step. cbn [store setFaults setTrace fst snd].
  by destruct (store w !! (namespace, name)).
Qed.

Lemma run_Delete namespace name w :
  client.Delete namespace name w =
  let w1 := requested (ReqDelete namespace name) w in
  match default None (head (faults w)) with
  | Some msg => (Ret (Some msg), w1)
  | None =>
      match store w !! (namespace, name) with
      | Some _ => (Ret None, setStore (delete (namespace, name) (store w)) w1)
      | None => (Ret (Some (client.notFound name)), w1)
      end
  end.
Proof.
  unfold client.Delete. go. rewrite run_nextFault. cbn [faults setTrace].
  destruct (default None (head (faults w))); go; [reflexivity|].
  rewrite run_step. cbn [store setFaults setTrace fst snd].
  by destruct (store w !! (namespace, name)).
Qed.

Lemma run_Create pod w :
  client.Create pod w =
  let w1 := requested (ReqCreate pod) w in
  match default None (head (faults w)) with
  | Some msg => (Ret (Some msg), w1)
  | None =>
      match store w !! (Namespace pod, Name pod) with
      | Some _ => (Ret (Some (client.alreadyExists (Name pod))), w1)
      | None =>
          (Ret None, setStore (<[(Namespace pod, Name pod) := pod]> (store w)) w1)
      end
  end.
Proof.
  unfold client.Create. go. rewrite run_nextFault. cbn [faults setTrace].
  destruct (default None (head (faults w))); go; [reflexivity|].
  rewrite run_step. cbn [store setFaults setTrace fst snd].
  by destruct (store w !! (Namespace pod, Name pod)).
Qed.

Lemma run_Get namespace name w :
  client.Get namespace name w =
  let w1 := requested (ReqGet namespace name) w in
  match default None (head (faults w)) with
  | Some msg => (Ret (emptyPod, Some msg), w1)
  | None =>
      match store w !! (namespace, name) with
      | Some pod => (Ret (pod, None), w1)
      | None => (Ret (emptyPod, Some (client.notFound name)), w1)
      end
  end.
Proof.
  unfold client.Get. go. rewrite run_nextFault. cbn [faults setTrace].
  destruct (default None (head (faults w))); go; [reflexivity|].
  rewrite run_step. cbn [store setFaults setTrace fst snd].
  by destruct (store w !! (namespace, name)).
Qed.

Lemma run_Watch namespace name w :
  client.Watch namespace name w =
  let w1 := requested (ReqWatch namespace name) w in
  match default None (head (faults w)) with
  | Some msg => (Ret ([], Some msg), w1)
  | None => (Ret (default [] (head (watches w)), None),
             setWatches (tail (watches w)) w1)
  end.
Proof.
  unfold client.Watch. go. rewrite run_nextFault. cbn [faults setTrace].
  destruct (default None (head (faults w))); go; [reflexivity|].
  rewrite run_step. cbn [watches setFaults setTrace fst snd].
  unfold requested. by destruct w as [s fs [|e ws] ss us t].
Qed.

(** ** Patches *)

Lemma jsonAnnotations_default p :
  default ∅ (jsonAnnotations p) = default ∅ (Annotations p).
Proof.
  unfold jsonAnnotations. destruct (Annotations p) as [m|]; [|done].
  by destruct (decide (m = ∅)) as [->|].
Qed.

Lemma jsonAnnotations_nonempty p m : jsonAnnotations p = Some m → m ≠ ∅.
Proof.
  unfold jsonAnnotations. destruct (Annotations p) as [m'|]; [|done].
  destruct (decide (m' = ∅)); [done|]. by intros [= ->].
Qed.

(** Diffing two snapshots and applying the patch to a pod that carries the
    annotations of the first gives the annotations of the second. *)
Lemma applyPatch_diff (stored p p' : Pod) :
  default ∅ (Annotations stored) = default ∅ (Annotations p) →
  default ∅ (Annotations (applyPatch (CreateTwoWayMergePatch p p') stored))
  = default ∅ (Annotations p').
Proof.
  intros Hsync. rewrite <- (jsonAnnotations_default p) in Hsync.
  rewrite <- (jsonAnnotations_default p').
  unfold CreateTwoWayMergePatch.
  destruct (jsonAnnotations p) as [o|] eqn:Ho;
    destruct (jsonAnnotations p') as [m|] eqn:Hm; simpl in Hsync |- *.
  - unfold applyPatch. destruct (decide (merge diffEntry o m = ∅)) as [He|_].
    + rewrite Hsync. apply map_eq. intros k.
      assert (Hk : merge diffEntry o m !! k = None) by (by rewrite He).
      rewrite lookup_merge in Hk. unfold diffEntry in Hk.
      destruct (o !! k) as [x|], (m !! k) as [y|]; cbn in Hk; try done.
      destruct (decide (Some x = Some y)) as [[= ->]|]; done.
    + simpl. rewrite Hsync.
      apply map_eq. intros k. rewrite !lookup_merge. unfold diffEntry.
      destruct (o !! k) as [x|], (m !! k) as [y|]; cbn; try done.
      destruct (decide (Some x = Some y)) as [[= ->]|]; done.
  - done.
  - apply jsonAnnotations_nonempty in Hm.
    unfold applyPatch. destruct (decide (Some <$> m = ∅)) as [He|_].
    + by apply fmap_empty_inv in He.
    + simpl. rewrite Hsync.
      apply map_eq. intros k. rewrite lookup_merge, lookup_fmap, lookup_empty.
      by destruct (m !! k).
  - unfold applyPatch. by destruct (decide (∅ = ∅)).
Qed.

(** ** Annotations: upsert and deletion *)

Lemma upsert_fold (M upd : gmap string string) :
  map_fold (λ key value acc, <[key := value]> acc) M upd = upd ∪ M.
Proof.
  apply (map_fold_weak_ind (λ r m, r = m ∪ M)).
  - by rewrite (left_id_L ∅ (∪)).
  - intros i x m r _ ->. by rewrite insert_union_l.
Qed.

Lemma run_applyPatchForAnnotation namespace newPod modifiedPod pod rs w :
  applyPatchForAnnotation namespace newPod modifiedPod pod rs w =
  let '(r, w') :=
    client.Patch namespace (Name pod) (CreateTwoWayMergePatch newPod modifiedPod) w in
  (match r with
   | Ret (Some e) =>
       Ret (Some ("failed to patch annotation to pod " +:+ Name pod +:+ ": " +:+ e))
   | Ret None => Ret None
   | Panic msg => Panic msg
   end, w').
Proof.
  unfold applyPatchForAnnotation. go.
  destruct (client.Patch _ _ _ w) as [[[e|]|msg] w']; reflexivity.
Qed.

Lemma run_applyAnnotationUpdateOnPod namespace upd pod rs w :
  applyAnnotationUpdateOnPod namespace upd pod rs w =
  let '(r, w') :=
    applyPatchForAnnotation namespace pod (upserted upd pod) (upserted upd pod) rs w in
  (match r with
   | Ret err => Ret (err, upserted upd pod)
   | Panic msg => Panic msg
   end, w').
Proof.
  unfold applyAnnotationUpdateOnPod, upserted. rewrite upsert_fold. go.
  destruct (applyPatchForAnnotation _ _ _ _ _ w) as [[err|msg] w']; reflexivity.
Qed.

Lemma patch_served namespace name patch w w' :
  client.Patch namespace name patch w = (Ret None, w') →
  ∃ stored,
    store w !! (namespace, name) = Some stored ∧
    store w' = <[(namespace, name) := applyPatch patch stored]> (store w).
Proof.
  rewrite run_Patch. cbn zeta.
  destruct (default None (head (faults w))); [done|].
  destruct (store w !! (namespace, name)) as [stored|]; [|done].
  intros [= <-]. by exists stored.
Qed.

(** C7. After a successful upsert of status [active], container [c] and
    action [a], the annotation map of the pod object is the map [M] it had
    before (empty for a nil map) with these three pairs written into it:
    every other key of [M] keeps its value, the keys are those of [M] and
    the three, and no other field of the pod changes.  The copy the API
    server holds, if it carried the annotations [M], carries the same map
    afterwards. *)
Theorem C7_upsert_preserves_other_annotations
    (namespace : string) (pod : Pod) (rs : requestSpec) (c a : string)
    (w : World) (pod' : Pod) (w' : World) :
  applyAnnotationUpdateOnPod namespace
    {[ constants.AnnotationExecuteStatus := constants.StatusActive;
       constants.AnnotationExecuteContainer := c;
       constants.AnnotationExecuteAction := a ]}
    pod rs w = (Ret (None, pod'), w') →
  let M := default ∅ (Annotations pod) in
  let M' := <[constants.AnnotationExecuteStatus := constants.StatusActive]>
              (<[constants.AnnotationExecuteContainer := c]>
                 (<[constants.AnnotationExecuteAction := a]> M)) in
  Annotations pod' = Some M'
  ∧ (∀ key, key ≠ constants.AnnotationExecuteStatus →
            key ≠ constants.AnnotationExecuteContainer →
            key ≠ constants.AnnotationExecuteAction →
            M' !! key = M !! key)
  ∧ dom M' = {[ constants.AnnotationExecuteStatus;
                constants.AnnotationExecuteContainer;
                constants.AnnotationExecuteAction ]} ∪ dom M
  ∧ pod' = setAnnotations (Some M') pod
  ∧ (∀ stored, store w !! (namespace, Name pod) = Some stored →
               default ∅ (Annotations stored) = M →
               ∃ stored', store w' !! (namespace, Name pod) = Some stored' ∧
                          default ∅ (Annotations stored') = M').
Proof.
  intros Hrun M M'.
  rewrite run_applyAnnotationUpdateOnPod, run_applyPatchForAnnotation in Hrun.
  set (upd := {[ constants.AnnotationExecuteStatus := constants.StatusActive;
                 constants.AnnotationExecuteContainer := c;
                 constants.AnnotationExecuteAction := a ]} : gmap string string)
    in Hrun.
  assert (Hupd : upd ∪ M = M').
  { unfold upd, M'. rewrite <- !insert_union_l. f_equal. f_equal.
    by rewrite <- insert_union_singleton_l. }
  assert (Hpod : upserted upd pod = setAnnotations (Some M') pod).
  { unfold upserted. fold M. by rewrite Hupd. }
  rewrite Hpod in Hrun. cbn [Name setAnnotations] in Hrun.
  destruct (client.Patch _ _ _ w) as [[[e|]|msg] w1] eqn:Hpatch; try done.
  injection Hrun as <- <-.
  split; [done|]. split.
  { intros key H1 H2 H3. unfold M'. by rewrite !lookup_insert_ne. }
  split.
  { unfold M'. rewrite !dom_insert_L. by rewrite !(assoc_L (∪)). }
  split; [done|].
  intros stored Hstored Hsync.
  apply patch_served in Hpatch as (stored0 & Hstored0 & ->).
  rewrite Hstored in Hstored0. injection Hstored0 as <-.
  eexists. split; [apply lookup_insert_eq|].
  by rewrite (applyPatch_diff stored pod (setAnnotations (Some M') pod)).
Qed.

Lemma lookup_delete_annotations (a : option (gmap string string)) h key :
  (delete h <$> a) ≫= (.!! key) =
  if decide (h = key) then None else a ≫= (.!! key).
Proof.
  destruct a as [m|]; simpl; [apply lookup_delete|]. by destruct (decide _).
Qed.

(** Where the loop of [applyAnnotationDeletionOnPod] stops when one of the
    keys reads as the empty string, and what it has done by then. *)
Lemma deleteLoop_stops ks :
  ∀ a k,
    k ∈ ks → default "" (a ≫= (.!! k)) = "" →
    ∃ pre k' post a',
      ks = pre ++ k' :: post ∧
      deleteLoop ks a = inl (k', a') ∧
      default "" (a' ≫= (.!! k')) = "" ∧
      (k ∈ pre → False) ∧
      (∀ key, key ∈ pre →
              a' ≫= (.!! key) = None ∧ default "" (a ≫= (.!! key)) ≠ "") ∧
      (∀ key, key ∉ pre → a' ≫= (.!! key) = a ≫= (.!! key)) ∧
      NoDup pre.
Proof.
  induction ks as [|h rest IH]; intros a k Hin Hk.
  { by apply elem_of_nil in Hin. }
  cbn [deleteLoop].
  destruct (decide (default "" (a ≫= (.!! h)) = "")) as [Hh|Hh].
  { exists [], h, rest, a.
    split; [done|]. split; [done|]. split; [done|].
    split; [by intros ?%elem_of_nil|].
    split; [by intros key ?%elem_of_nil|].
    split; [done|constructor]. }
  assert (Hne : h ≠ k) by (intros ->; done).
  apply elem_of_cons in Hin as [->|Hin]; [done|].
  destruct (IH (delete h <$> a) k Hin)
    as (pre & k' & post & a' & -> & Hrun & Hk' & Hpre & Hdel & Hkeep & Hnd).
  { rewrite lookup_delete_annotations. by destruct (decide (h = k)). }
  assert (Hhp : h ∉ pre).
  { intros Hhp. destruct (Hdel _ Hhp) as [_ Hval].
    rewrite lookup_delete_annotations in Hval.
    by destruct (decide (h = h)). }
  exists (h :: pre), k', post, a'.
  split; [done|]. split; [done|]. split; [done|].
  split; [by intros [->|?]%elem_of_cons|].
  split; [|split].
  - intros key [->|Hkey]%elem_of_cons.
    + split; [|done].
      rewrite (Hkeep _ Hhp), lookup_delete_annotations.
      by destruct (decide (h = h)).
    + destruct (Hdel _ Hkey) as [Hnone Hval]. split; [done|].
      rewrite lookup_delete_annotations in Hval.
      by destruct (decide (h = key)).
  - intros key [Hkh Hkp]%not_elem_of_cons.
    rewrite (Hkeep _ Hkp), lookup_delete_annotations.
    by destruct (decide (h = key)).
  - by constructor.
Qed.

Lemma run_deletion_stops namespace ks pod rs w k' a' :
  deleteLoop ks (Annotations pod) = inl (k', a') →
  applyAnnotationDeletionOnPod namespace ks pod rs w =
  (Ret (Some (doesNotExist k'), setAnnotations a' pod), w).
Proof.
  intros Hloop. unfold applyAnnotationDeletionOnPod. by rewrite Hloop.
Qed.

(** C8. A key that is in the annotation map with the empty string as its
    value counts as missing: a deletion whose list has such a key returns
    the error "annotation ... to be deleted does not exist" for a key of
    the list, which is that key when the list starts with it, and sends
    nothing to the API server. *)
Theorem C8_empty_value_counts_as_missing
    (namespace : string) (ks : list string) (pod : Pod) (rs : requestSpec)
    (w : World) (k : string) :
  k ∈ ks →
  Annotations pod ≫= (.!! k) = Some "" →
  ∃ k' pod',
    k' ∈ ks ∧
    (head ks = Some k → k' = k) ∧
    applyAnnotationDeletionOnPod namespace ks pod rs w =
    (Ret (Some ("annotation " +:+ k' +:+ " to be deleted does not exist"), pod'),
     w).
Proof.
  intros Hin Hk.
  destruct (deleteLoop_stops ks (Annotations pod) k Hin)
    as (pre & k' & post & a' & Hks & Hloop & _ & Hpre & _ & _ & _).
  { by rewrite Hk. }
  exists k', (setAnnotations a' pod). split; [|split].
  - rewrite Hks, elem_of_app, elem_of_cons. tauto.
  - rewrite Hks. destruct pre as [|h pre]; cbn; [congruence|].
    intros [= ->]. destruct Hpre. apply elem_of_cons. by left.
  - by apply run_deletion_stops.
Qed.

(** C4, as the code has it.  When a key of the list reads as missing
    (absent, or present with the empty string), the deletion returns the
    missing-annotation error for the first key [k'] of the list that reads
    so at its turn, and the world is as before: nothing is sent, no
    annotation changes on the API server.  On the pod object the keys
    listed before [k'], which all were present, are gone; every other
    annotation and every other field is as before.

    The keys [pre] before [k'] are pairwise distinct and each had a
    non-empty value on the pod, so none of them read as missing at its
    turn; [k'] reads as missing on the pod object as the loop left it,
    which is so because it had no value on the pod or is one of [pre];
    the key [k] of the hypothesis is not among [pre].  This fixes [pre]
    and [k']: [pre] is the longest prefix of the list whose keys are
    distinct and present. *)
Theorem C4_failed_deletion_keeps_cluster_and_unlisted_keys
    (namespace : string) (ks : list string) (pod : Pod) (rs : requestSpec)
    (w : World) (k : string) :
  k ∈ ks →
  annotation pod k = "" →
  ∃ pre k' post pod',
    ks = pre ++ k' :: post ∧
    applyAnnotationDeletionOnPod namespace ks pod rs w =
      (Ret (Some (doesNotExist k'), pod'), w) ∧
    pod' = setAnnotations (Annotations pod') pod ∧
    (∀ key, key ∈ pre →
            annotation pod key ≠ "" ∧ Annotations pod' ≫= (.!! key) = None) ∧
    (∀ key, key ∉ pre →
            Annotations pod' ≫= (.!! key) = Annotations pod ≫= (.!! key)) ∧
    annotation pod' k' = "" ∧
    (k' ∈ pre ∨ annotation pod k' = "") ∧
    NoDup pre ∧
    k ∉ pre.
Proof.
  intros Hin Hk.
  destruct (deleteLoop_stops ks (Annotations pod) k Hin Hk)
    as (pre & k' & post & a' & Hks & Hloop & Hk' & Hpre & Hdel & Hkeep & Hnd).
  exists pre, k', post, (setAnnotations a' pod).
  split; [done|]. split; [by apply run_deletion_stops|].
  split; [done|]. split; [|split; [|split; [|split; [|split]]]].
  - intros key Hkey. destruct (Hdel key Hkey). by split.
  - intros key Hkey. by apply Hkeep.
  - exact Hk'.
  - destruct (decide (k' ∈ pre)) as [Hp|Hp]; [by left|right].
    unfold annotation. by rewrite <- (Hkeep _ Hp).
  - exact Hnd.
  - exact Hpre.
Qed.

(** C4 does not hold as an all-or-nothing statement about the pod object.
    A failed deletion on the tests' pod: [init-annotation1] is deleted from
    the pod object before the loop meets the key that is missing. *)
Lemma C4_failed_deletion_mutates_pod_object :
  let pod := test.targetPodSpecWithNode in
  let w := test.world [pod] [] [] [] in
  let ks := ["init-annotation1"; "no-such-annotation"] in
  let r := applyAnnotationDeletionOnPod "default" ks pod test.currRequest w in
  Annotations pod ≫= (.!! "no-such-annotation") = None ∧
  Annotations pod ≫= (.!! "init-annotation1") = Some "init-value1" ∧
  ∃ pod',
    r = (Ret (Some (doesNotExist "no-such-annotation"), pod'), w) ∧
    Annotations pod' ≫= (.!! "init-annotation1") = None.
Proof.
  cbn zeta. split; [by vm_compute|]. split; [by vm_compute|].
  eexists. split.
  - apply run_deletion_stops. vm_compute. reflexivity.
  - by vm_compute.
Qed.

(** ** The container ID of the target container *)

Lemma substring_all s : String.substring 0 (String.length s) s = s.
Proof. induction s as [|a s IH]; [done|]. cbn. by rewrite IH. Qed.

Lemma substring_suffix s t :
  String.substring (String.length s) (String.length t) (s +:+ t) = t.
Proof.
  induction s as [|a s IH]; [apply substring_all|].
  rewrite append_String. cbn [String.length String.substring]. apply IH.
Qed.

Lemma sliceFrom_short s : len s < 9 → sliceFrom s 9 = None.
Proof.
  intros Hlen. unfold sliceFrom, slice.
  replace (9 <=? len s) with false by (symmetry; apply Z.leb_gt; lia).
  by rewrite andb_false_r.
Qed.

Lemma sliceFrom_prefix scheme id :
  len scheme = 9 → sliceFrom (scheme +:+ id) 9 = Some id.
Proof.
  intros Hlen. unfold sliceFrom, slice. rewrite len_app, Hlen.
  pose proof (len_nonneg id).
  replace ((0 <=? 9) && (9 <=? 9 + len id) && (9 + len id <=? 9 + len id))
    with true by (symmetry; rewrite !andb_true_iff, !Z.leb_le; lia).
  f_equal.
  replace (Z.to_nat 9) with (String.length scheme) by (unfold len in Hlen; lia).
  replace (Z.to_nat (9 + len id - 9)) with (String.length id)
    by (unfold len; lia).
  apply substring_suffix.
Qed.

Lemma containerIDLoop_skip statuses target id rest :
  Forall (λ s, csName s ≠ target) statuses →
  containerIDLoop (statuses ++ rest) target id = containerIDLoop rest target id.
Proof.
  induction 1 as [|s statuses Hs _ IH]; [done|].
  cbn [app containerIDLoop]. by destruct (decide (csName s = target)).
Qed.

(** A matching entry whose identifier is shorter than the prefix stops the
    loop with a panic, whatever the other entries are. *)
Lemma containerIDLoop_out_of_range statuses target s :
  s ∈ statuses → csName s = target → len (ContainerID s) < 9 →
  ∀ id, containerIDLoop statuses target id = None.
Proof.
  intros Hin Hname Hlen.
  induction statuses as [|p rest IH]; [by apply elem_of_nil in Hin|].
  intros id. cbn [containerIDLoop].
  apply elem_of_cons in Hin as [<-|Hin].
  - destruct (decide (csName s = target)); [|done].
    by rewrite (sliceFrom_short _ Hlen).
  - destruct (decide (csName p = target)); [|by apply IH].
    destruct (sliceFrom (ContainerID p) 9); [by apply IH|done].
Qed.

Lemma detectContainerID_unpopulated pod s :
  s ∈ ContainerStatuses pod →
  csName s = annotation pod constants.AnnotationExecuteContainer →
  ContainerID s = "" →
  detectContainerID pod = Panic "slice bounds out of range".
Proof.
  intros Hin Hname Hid. unfold detectContainerID.
  rewrite (containerIDLoop_out_of_range _ _ s Hin Hname); [done|].
  by rewrite Hid.
Qed.

(** C2 does not hold for init containers.  The test pod whose target is an
    init container: the status entry of the target is not found. *)
Lemma C2_init_container_status_is_not_read :
  let pod := test.initContainerTarget in
  annotation pod constants.AnnotationExecuteContainer = "target-container" ∧
  InitContainerStatuses pod =
    [ {| csName := "target-container"; ContainerID := "docker://containerid" |} ] ∧
  ContainerStatuses pod = [] ∧
  detectContainerID pod = Ret ("", Some (noMatchingContainerID pod)) ∧
  detectContainerID pod ≠ Ret ("containerid", None).
Proof. cbn zeta. split_and!; by vm_compute. Qed.

(** C2, as the code has it.  The container ID is looked up among the
    statuses of the regular containers and nowhere else: two pods that
    differ in their init-container statuses only get the same answer.  A
    pod without a regular status entry of the annotated name, the one whose
    only matching entry is an init-container status among them, gets the
    error "no matching container ID".  A pod with one regular entry of that
    name, whose identifier is a prefix of 9 bytes and a rest that is not
    empty, gets that rest. *)
Theorem C2_container_id_from_regular_statuses (pod : Pod) :
  let target := annotation pod constants.AnnotationExecuteContainer in
  (∀ pod2,
     Name pod2 = Name pod → Namespace pod2 = Namespace pod →
     Annotations pod2 = Annotations pod →
     ContainerStatuses pod2 = ContainerStatuses pod →
     detectContainerID pod2 = detectContainerID pod)
  ∧ (Forall (λ s, csName s ≠ target) (ContainerStatuses pod) →
     detectContainerID pod = Ret ("", Some (noMatchingContainerID pod)))
  ∧ (∀ before s after scheme id,
       ContainerStatuses pod = before ++ s :: after →
       Forall (λ s, csName s ≠ target) before →
       Forall (λ s, csName s ≠ target) after →
       csName s = target →
       ContainerID s = scheme +:+ id → len scheme = 9 → id ≠ "" →
       detectContainerID pod = Ret (id, None)).
Proof.
  intros target. split; [|split].
  - intros pod2 Hn Hns Ha Hs.
    unfold detectContainerID, noMatchingContainerID, annotation.
    by rewrite Hn, Hns, Ha, Hs.
  - intros Hnone. unfold detectContainerID. fold target.
    rewrite <- (app_nil_r (ContainerStatuses pod)).
    by rewrite (containerIDLoop_skip _ _ _ [] Hnone).
  - intros before s after scheme id Hs Hbefore Hafter Hname Hid Hlen Hne.
    unfold detectContainerID. fold target.
    rewrite Hs, (containerIDLoop_skip _ _ _ _ Hbefore).
    cbn [containerIDLoop]. destruct (decide (csName s = target)); [|done].
    rewrite Hid, (sliceFrom_prefix _ _ Hlen).
    rewrite <- (app_nil_r after), (containerIDLoop_skip _ _ _ [] Hafter).
    cbn [containerIDLoop]. by destruct (decide (id = "")).
Qed.

(** C3, at a pod whose target container has not started.  The status entry
    of the target has an empty [ContainerID]; [ContainerID[9:]] is out of
    range, and the handler does not return the "no matching container ID"
    error: it panics, after it has written the status [in-progress]. *)
Theorem C3_unpopulated_container_id_panics :
  let pod := test.waitingTarget in
  let w := test.world [pod] [] [] [] in
  ContainerStatuses pod = [ {| csName := "target-container"; ContainerID := "" |} ] ∧
  detectContainerID pod = Panic "slice bounds out of range" ∧
  (handleActiveStatus test.CmdArgs None pod test.currRequest w).1
  = Panic "slice bounds out of range".
Proof. cbn zeta. split_and!; by vm_compute. Qed.

(** ** The done handler *)

Lemma deletePod_failed_store namespace rs w e w1 :
  deletePod namespace rs w = (Ret (Some e), w1) →
  store w1 = store w ∧
  trace w1 = trace w ++ [ReqDelete namespace (privPodName rs)].
Proof.
  unfold deletePod. go. rewrite run_Delete. cbn zeta.
  destruct (default None (head (faults w))) as [msg|]; go.
  { by intros [= _ <-]. }
  destruct (store w !! (namespace, privPodName rs)); go; [done|].
  by intros [= _ <-].
Qed.

(** C9. [handleDoneStatus] deletes the privileged pod first.  When that
    deletion fails, the handler returns its error; the request to delete
    the privileged pod is all it has sent; the pod object, its annotations
    among the rest, and all the API server holds are as before. *)
Theorem C9_failed_pod_deletion_leaves_annotations
    (args : cmdArgs.t) (oldPodResource : option Pod) (newPodResource : Pod)
    (rs : requestSpec) (w w1 : World) (e : string) :
  deletePod (cmdArgs.Namespace args) rs w = (Ret (Some e), w1) →
  handleDoneStatus args oldPodResource newPodResource rs w
    = (Ret (Some e, newPodResource), w1)
  ∧ store w1 = store w
  ∧ trace w1 = trace w ++ [ReqDelete (cmdArgs.Namespace args) (privPodName rs)].
Proof.
  intros Hdel. split; [|by apply (deletePod_failed_store _ _ _ e)].
  unfold handleDoneStatus. go. rewrite Hdel. by go.
Qed.

(** ** The active handler up to the timeout *)

Lemma setPhase_same p : setPhase (Phase p) p = p.
Proof. by destruct p. Qed.



(** ** How often an update enters [Process] *)

Lemma processCalls_app t1 t2 :
  processCalls (t1 ++ t2) = (processCalls t1 + processCalls t2)%nat.
Proof. unfold processCalls. by rewrite List.filter_app, length_app. Qed.

Create HintDb quiet.

Lemma quiet_ret {A : Type} (a : A) : quiet (mret a : Go A).
Proof. by intros w. Qed.

Lemma quiet_panic {A : Type} msg : quiet (@panic A msg).
Proof. by intros w. Qed.

Lemma quiet_lift {A : Type} (o : outcome A) : quiet (lift o).
Proof. by intros w. Qed.

Lemma quiet_bind {A B : Type} (m : Go A) (f : A → Go B) :
  quiet m → (∀ a, quiet (f a)) → quiet (m ≫= f).
Proof.
  intros Hm Hf w. rewrite run_bind. specialize (Hm w).
  destruct (m w) as [[a|msg] w1]; cbn [snd] in *; [|done].
  by rewrite (Hf a w1).
Qed.

Lemma quiet_emit e : isCallProcess e = false → quiet (emit e).
Proof.
  intros He w. rewrite run_emit. cbn [snd trace setTrace].
  rewrite processCalls_app. unfold processCalls at 2. cbn. rewrite He. cbn. lia.
Qed.

Lemma quiet_step {A : Type} (f : World → A * World) :
  (∀ w, trace (f w).2 = trace w) → quiet (step f).
Proof. intros Hf w. rewrite run_step. cbn [snd]. by rewrite Hf. Qed.

Lemma quiet_nextFault : quiet client.nextFault.
Proof. apply quiet_step. intros w. by destruct (faults w). Qed.

Lemma quiet_nextStream : quiet client.nextStream.
Proof. apply quiet_step. intros w. by destruct (streams w). Qed.

Lemma quiet_newUUID : quiet newUUID.
Proof. apply quiet_step. intros w. by destruct (uuids w). Qed.

Lemma quiet_recorded namespace name phase :
  quiet (client.recorded namespace name phase).
Proof. by apply quiet_step. Qed.

#[local] Hint Resolve quiet_ret quiet_panic quiet_lift quiet_nextFault
  quiet_nextStream quiet_newUUID quiet_recorded : quiet.

(** Splits a call into its steps and closes the steps that are known to be
    quiet. *)
Ltac quiet :=
  repeat first
    [ solve [eauto with quiet]
    | apply quiet_emit; reflexivity
    | apply quiet_step; intros ?w;
      repeat match goal with
             | |- context [match ?x with _ => _ end] => destruct x
             end; reflexivity
    | apply quiet_bind; [|intros ?a]
    | match goal with
      | |- quiet (match ?x with _ => _ end) => destruct x
      | |- quiet (if ?x then _ else _) => destruct x
      end ].

Lemma quiet_Create pod : quiet (client.Create pod).
Proof. unfold client.Create. quiet. Qed.

Lemma quiet_Get namespace name : quiet (client.Get namespace name).
Proof. unfold client.Get. quiet. Qed.

Lemma quiet_Delete namespace name : quiet (client.Delete namespace name).
Proof. unfold client.Delete. quiet. Qed.

Lemma quiet_Patch namespace name patch :
  quiet (client.Patch namespace name patch).
Proof. unfold client.Patch. quiet. Qed.

Lemma quiet_Watch namespace name : quiet (client.Watch namespace name).
Proof. unfold client.Watch. quiet. Qed.

#[local] Hint Resolve quiet_Create quiet_Get quiet_Delete quiet_Patch
  quiet_Watch : quiet.

Lemma quiet_applyAnnotationUpdateOnPod namespace upd pod rs :
  quiet (applyAnnotationUpdateOnPod namespace upd pod rs).
Proof. unfold applyAnnotationUpdateOnPod, applyPatchForAnnotation. quiet. Qed.

Lemma quiet_applyAnnotationDeletionOnPod namespace ks pod rs :
  quiet (applyAnnotationDeletionOnPod namespace ks pod rs).
Proof. unfold applyAnnotationDeletionOnPod, applyPatchForAnnotation. quiet. Qed.

Lemma quiet_deletePod namespace rs : quiet (deletePod namespace rs).
Proof. unfold deletePod. quiet. Qed.

Lemma quiet_awaitRunning args namespace rs events :
  quiet (awaitRunning args namespace rs events).
Proof. induction events as [|[phase|] events IH]; cbn [awaitRunning]; quiet. Qed.

#[local] Hint Resolve quiet_applyAnnotationUpdateOnPod
  quiet_applyAnnotationDeletionOnPod quiet_deletePod quiet_awaitRunning : quiet.

Lemma quiet_createPrivilegedPod args namespace nodeName rs :
  quiet (createPrivilegedPod args namespace nodeName rs).
Proof. unfold createPrivilegedPod, createPod. quiet. Qed.

Lemma quiet_execCommandOnPod rce command : quiet (execCommandOnPod rce command).
Proof. unfold execCommandOnPod. quiet. Qed.

#[local] Hint Resolve quiet_createPrivilegedPod quiet_execCommandOnPod : quiet.

Lemma quiet_executeNsenterCommand rce command :
  quiet (executeNsenterCommand rce command).
Proof. unfold executeNsenterCommand, getPID. quiet. Qed.

#[local] Hint Resolve quiet_executeNsenterCommand : quiet.

Lemma quiet_handleActiveStatus args old pod rs :
  quiet (handleActiveStatus args old pod rs).
Proof.
  unfold handleActiveStatus, updatePrivilegedCommandExecutorAnnotation. quiet.
Qed.

Lemma quiet_handleDoneStatus args old pod rs :
  quiet (handleDoneStatus args old pod rs).
Proof.
  unfold handleDoneStatus, deletePrivilegedCommandExecutorAnnotation. quiet.
Qed.

#[local] Hint Resolve quiet_handleActiveStatus quiet_handleDoneStatus : quiet.

(** Every call of [Process] is one entry. *)
Lemma Process_enters_once args old pod rs w :
  processCalls (trace (Process args old pod rs w).2)
  = S (processCalls (trace w)).
Proof.
  unfold Process. rewrite run_bind, run_emit. cbn beta iota zeta.
  match goal with
  | |- processCalls (trace (?m ?w1).2) = _ =>
      transitivity (processCalls (trace w1));
      [assert (Hq : quiet m) by quiet; exact (Hq w1)|]
  end.
  cbn [trace setTrace]. rewrite processCalls_app. cbn. lia.
Qed.

Lemma atStatusKey_enters_once args old pod w :
  processCalls (trace (atStatusKey args old pod w).2) = S (processCalls (trace w)).
Proof.
  unfold atStatusKey. rewrite run_bind.
  assert (Hu : ∃ u w1, newUUID w = (Ret u, w1) ∧ trace w1 = trace w).
  { unfold newUUID. rewrite run_step. destruct (uuids w); by eexists _, _. }
  destruct Hu as (u & w1 & -> & <-). rewrite run_bind.
  match goal with
  | |- context [Process args ?o ?p ?rs w1] =>
      pose proof (Process_enters_once args o p rs w1) as Hp;
      destruct (Process args o p rs w1) as [[[err pod1]|msg] w2]
  end; cbn [snd] in *; [|done].
  rewrite <- Hp.
  match goal with
  | |- processCalls (trace (?m w2).2) = _ =>
      assert (Hq : quiet m)
        by (unfold updatePrivilegedCommandExecutorAnnotation; quiet);
      exact (Hq w2)
  end.
Qed.

Lemma annotation_upserted upd pod key value :
  upd !! key = Some value → annotation (upserted upd pod) key = value.
Proof.
  intros Hkey. unfold annotation, upserted. simpl.
  by rewrite (lookup_union_Some_l _ _ _ _ Hkey).
Qed.

(** When the body reports a status entry created anew, that entry holds
    the status [error]. *)
Lemma atStatusKey_created args old pod w pod1 w1 :
  atStatusKey args old pod w = (Ret (pod1, true), w1) →
  annotation pod1 constants.AnnotationExecuteStatus = constants.StatusError.
Proof.
  unfold atStatusKey. rewrite run_bind.
  destruct (newUUID w) as [[u|?] w0]; [|done]. rewrite run_bind.
  match goal with
  | |- context [Process args ?o ?p ?rs w0] =>
      destruct (Process args o p rs w0) as [[[[e|] pod0]|msg] w2]
  end; [|done|done].
  rewrite run_bind. destruct (deletePod _ _ w2) as [[?|?] w3]; [|done].
  unfold updatePrivilegedCommandExecutorAnnotation.
  rewrite run_bind, run_applyAnnotationUpdateOnPod.
  destruct (applyPatchForAnnotation _ _ _ _ _ w3) as [[?|?] w4]; [|done].
  intros [= <- _ _]. apply annotation_upserted. apply lookup_insert_eq.
Qed.

(** At the status [error] the body enters [Process], which returns at
    once, and creates nothing. *)
Lemma atStatusKey_at_error args old pod w :
  annotation pod constants.AnnotationExecuteStatus = constants.StatusError →
  ∃ w1, atStatusKey args old pod w = (Ret (pod, false), w1).
Proof.
  intros Hstatus. unfold atStatusKey. rewrite run_bind.
  destruct (newUUID w) as [[u|?] w0] eqn:Hu.
  2:{ unfold newUUID in Hu. rewrite run_step in Hu. done. }
  unfold Process. go. rewrite Hstatus.
  destruct (decide (constants.StatusError = constants.StatusActive)); [done|].
  destruct (decide (constants.StatusError = constants.StatusDone)); [done|].
  go. by eexists.
Qed.

Lemma rangeAnnotations_at_error args produced old pod w :
  annotation pod constants.AnnotationExecuteStatus = constants.StatusError →
  processCalls (trace (rangeAnnotations args produced old pod w).2)
  = S (processCalls (trace w)).
Proof.
  intros Hstatus.
  destruct (atStatusKey_at_error args old pod w Hstatus) as [w1 Hrun].
  pose proof (atStatusKey_enters_once args old pod w) as Hcount.
  rewrite Hrun in Hcount. cbn [snd] in Hcount.
  destruct produced as [|[] rest]; cbn [rangeAnnotations];
    rewrite run_bind, Hrun; exact Hcount.
Qed.

(** The loop enters [Process] once, and once more when the run time
    produces a status entry that the first pass has created anew. *)
Lemma rangeAnnotations_enters args produced old pod w :
  let n := (processCalls (trace (rangeAnnotations args produced old pod w).2)
            - processCalls (trace w))%nat in
  (n = 1 ∨ n = 2)%nat ∧ (head produced ≠ Some true → n = 1%nat).
Proof.
  cbn zeta.
  pose proof (atStatusKey_enters_once args old pod w) as Hcount.
  destruct (atStatusKey args old pod w) as [[[pod1 created]|msg] w1] eqn:Hrun;
    cbn [snd] in Hcount.
  - destruct produced as [|[] rest]; cbn [rangeAnnotations];
      rewrite run_bind, Hrun; cbn beta iota; cbn [head].
    + rewrite run_ret. cbn [snd]. split; [left|intros _]; lia.
    + destruct created.
      * rewrite (rangeAnnotations_at_error args rest old pod1 w1
                   (atStatusKey_created _ _ _ _ _ _ Hrun)).
        split; [right; lia|done].
      * rewrite run_ret. cbn [snd]. split; [left|intros _]; lia.
    + rewrite run_ret. cbn [snd]. split; [left|intros _]; lia.
  - assert (Hpanic : (rangeAnnotations args produced old pod w).2 = w1).
    { destruct produced as [|[] rest]; cbn [rangeAnnotations];
        by rewrite run_bind, Hrun. }
    rewrite Hpanic. split; [left|intros _]; lia.
Qed.

(** [handleUpdate] enters [Process] when and only when the new pod
    qualifies: not at all for a pod that does not, at least once and at
    most twice for a pod that does, and once when the run time skips the
    entries created during the iteration. *)
Lemma handleUpdate_enters_Process args produced oldObj newObj w :
  let w' := (handleUpdate args produced oldObj newObj w).2 in
  let n := (processCalls (trace w') - processCalls (trace w))%nat in
  (qualifies newObj = false → w' = w ∧ n = 0%nat) ∧
  (qualifies newObj = true → (n = 1 ∨ n = 2)%nat) ∧
  (qualifies newObj = true → head produced ≠ Some true → n = 1%nat).
Proof.
  cbn zeta. unfold handleUpdate.
  destruct (qualifies newObj).
  - pose proof (rangeAnnotations_enters args produced oldObj newObj w) as [H1 H2].
    split; [done|]. split; [by intros _|]. intros _. exact H2.
  - split; [|done]. intros _. split; [done|]. cbn. lia.
Qed.

(** C6, at an update with status [done] whose annotation patch fails.  The
    done handler has removed the three keys from the pod object when the
    patch fails; the error path of [handleUpdate] then writes the status
    [error], which creates the status entry anew while the loop ranges
    over the map.  When the run time produces that entry, [Process] is
    entered a second time, with the status [error]. *)
Theorem C6_update_enters_Process_twice :
  let newObj := test.requested constants.StatusDone in
  let w := test.world [newObj; test.privPod]
             [None; Some "etcdserver: request timed out"] [] [] in
  let w' := (handleUpdate test.CmdArgs [true] test.targetPodSpecWithNode
               newObj w).2 in
  qualifies newObj = true ∧
  List.filter isCallProcess (trace w') = [CallProcess "done"; CallProcess "error"] ∧
  processCalls (trace w') = 2%nat.
Proof. cbn zeta. split_and!; by vm_compute. Qed.

(** ** The statements at the pods of the tests *)


Lemma C2_container_id_at_test_pods :
  detectContainerID test.initContainerTarget
    = Ret ("", Some (noMatchingContainerID test.initContainerTarget))
  ∧ detectContainerID (test.requested constants.StatusActive)
    = Ret ("containerid", None).
Proof.
  split.
  - apply (C2_container_id_from_regular_statuses test.initContainerTarget).
    vm_compute. constructor.
  - apply (C2_container_id_from_regular_statuses
             (test.requested constants.StatusActive))
      with (before := []) (after := []) (s := test.containerStatus)
           (scheme := "docker://");
      try reflexivity; try (vm_compute; constructor). discriminate.
Defined.

Lemma C4_failed_deletion_at_test_pod :
  let pod := test.targetPodSpecWithNode in
  let ks := ["init-annotation1"; "no-such-annotation"] in
  let w := test.world [pod] [] [] [] in
  ∃ pre k' post pod',
    ks = pre ++ k' :: post ∧
    applyAnnotationDeletionOnPod "default" ks pod test.currRequest w =
      (Ret (Some (doesNotExist k'), pod'), w) ∧
    pod' = setAnnotations (Annotations pod') pod ∧
    (∀ key, key ∈ pre →
            annotation pod key ≠ "" ∧ Annotations pod' ≫= (.!! key) = None) ∧
    (∀ key, key ∉ pre →
            Annotations pod' ≫= (.!! key) = Annotations pod ≫= (.!! key)) ∧
    annotation pod' k' = "" ∧
    (k' ∈ pre ∨ annotation pod k' = "") ∧
    NoDup pre ∧
    "no-such-annotation" ∉ pre.
Proof.
  cbn zeta.
  apply (C4_failed_deletion_keeps_cluster_and_unlisted_keys "default"
           ["init-annotation1"; "no-such-annotation"]
           test.targetPodSpecWithNode test.currRequest
           (test.world [test.targetPodSpecWithNode] [] [] [])
           "no-such-annotation").
  - repeat constructor.
  - vm_compute. reflexivity.
Defined.

Lemma C5_nsenter_command_vector_at_test_pod :
  let w := test.execWorld in
  let w1 := (getPID test.rce w).2 in
  ∃ w2,
    snd (executeNsenterCommand test.rce ["gcore"; "1"] w) = w2 ∧
    trace w2 =
      trace w1 ++
      [ExecOnPod "default" "priv-test-pod-target-container" "priv-pod"
         (["nsenter"; "--target"; "28400"; "--ipc"; "--uts"; "--net"; "--pid"]
          ++ ["gcore"; "1"])]
    ∧ ("--mount" ∈ commandToExecute "28400" ["gcore"; "1"]
       ↔ "28400" = "--mount" ∨ "--mount" ∈ ["gcore"; "1"]).
Proof.
  cbn zeta.
  apply (C5_nsenter_command_vector test.rce ["gcore"; "1"] "28400"
           test.execWorld (getPID test.rce test.execWorld).2).
  vm_compute. reflexivity.
Defined.

Lemma C7_upsert_at_test_pod :
  let pod := test.targetPodSpecWithNode in
  let w := test.world [pod] [] [] [] in
  let M := default ∅ (Annotations pod) in
  let M' := <[constants.AnnotationExecuteStatus := constants.StatusActive]>
              (<[constants.AnnotationExecuteContainer := "target-container"]>
                 (<[constants.AnnotationExecuteAction := "target-action"]> M)) in
  let r := applyAnnotationUpdateOnPod "default"
             {[ constants.AnnotationExecuteStatus := constants.StatusActive;
                constants.AnnotationExecuteContainer := "target-container";
                constants.AnnotationExecuteAction := "target-action" ]}
             pod test.currRequest w in
  r.1 = Ret (None, test.requested constants.StatusActive) ∧
  Annotations (test.requested constants.StatusActive) = Some M' ∧
  (∀ key, key ≠ constants.AnnotationExecuteStatus →
          key ≠ constants.AnnotationExecuteContainer →
          key ≠ constants.AnnotationExecuteAction →
          M' !! key = M !! key).
Proof.
  cbn zeta. split; [vm_compute; reflexivity|].
  pose proof (C7_upsert_preserves_other_annotations "default"
                test.targetPodSpecWithNode test.currRequest
                "target-container" "target-action"
                (test.world [test.targetPodSpecWithNode] [] [] [])
                (test.requested constants.StatusActive)
                (applyAnnotationUpdateOnPod "default"
                   {[ constants.AnnotationExecuteStatus := constants.StatusActive;
                      constants.AnnotationExecuteContainer := "target-container";
                      constants.AnnotationExecuteAction := "target-action" ]}
                   test.targetPodSpecWithNode test.currRequest
                   (test.world [test.targetPodSpecWithNode] [] [] [])).2) as H.
  cbn zeta in H. destruct H as (H1 & H2 & _).
  - vm_compute. reflexivity.
  - split; [exact H1|exact H2].
Defined.

Lemma C8_empty_value_at_test_pod :
  let ks := [constants.AnnotationExecuteStatus;
             constants.AnnotationExecuteContainer;
             constants.AnnotationExecuteAction] in
  let w := test.world [test.emptyAction] [] [] [] in
  ∃ k' pod',
    k' ∈ ks ∧
    (head ks = Some constants.AnnotationExecuteAction
     → k' = constants.AnnotationExecuteAction) ∧
    applyAnnotationDeletionOnPod "default" ks test.emptyAction test.currRequest w =
    (Ret (Some ("annotation " +:+ k' +:+ " to be deleted does not exist"), pod'),
     w).
Proof.
  cbn zeta.
  apply (C8_empty_value_counts_as_missing "default"
           [constants.AnnotationExecuteStatus;
            constants.AnnotationExecuteContainer;
            constants.AnnotationExecuteAction]
           test.emptyAction test.currRequest
           (test.world [test.emptyAction] [] [] [])
           constants.AnnotationExecuteAction).
  - repeat constructor.
  - vm_compute. reflexivity.
Defined.

Lemma C9_failed_pod_deletion_at_test_pod :
  let pod := test.requested constants.StatusDone in
  let w := test.world [pod] [] [] [] in
  let e := "failed to delete pod priv-test-pod-target-container: "
           +:+ client.notFound "priv-test-pod-target-container" in
  let w1 := (deletePod "default" test.currRequest w).2 in
  handleDoneStatus test.CmdArgs None pod test.currRequest w
    = (Ret (Some e, pod), w1)
  ∧ store w1 = store w
  ∧ trace w1 = trace w ++ [ReqDelete "default" "priv-test-pod-target-container"].
Proof.
  cbn zeta.
  apply (C9_failed_pod_deletion_leaves_annotations test.CmdArgs None
           (test.requested constants.StatusDone) test.currRequest
           (test.world [test.requested constants.StatusDone] [] [] [])).
  vm_compute. reflexivity.
Defined.

Lemma C10_getPID_at_test_outputs :
  (∃ a pid b c,
     test.pidLine = String a (pid +:+ String b (String c "")) ∧
     (getPID test.rce test.execWorld).1 = Ret (pid, None))
  ∧ (getPID test.rce test.shortOutputWorld).1 = Panic "slice bounds out of range".
Proof.
  split.
  - destruct (C10_getPID_defined_from_three_bytes test.rce test.execWorld
                test.pidLine "" [StreamDone "Saved corefile core.1" ""] eq_refl)
      as [Hlong _].
    destruct Hlong as (a & pid & b & c & Hline & Hrun); [by vm_compute|].
    exists a, pid, b, c. by rewrite Hrun.
  - destruct (C10_getPID_defined_from_three_bytes test.rce test.shortOutputWorld
                "''" "" [] eq_refl)
      as [_ Hshort].
    destruct Hshort as [Hrun _]; [by vm_compute|]. by rewrite Hrun.
Defined.

(** ** The handlers at work on the pods of the tests *)

Example Fields_splits_at_white_space :
  Fields ("  gcore   1" +:+ String "009"%char " -o core ") = ["gcore"; "1"; "-o"; "core"].
Proof. reflexivity. Qed.

Example sliceFrom_strips_the_scheme :
  sliceFrom "docker://containerid" 9 = Some "containerid"
  ∧ sliceFrom "docker://" 9 = Some ""
  ∧ sliceFrom "" 9 = None.
Proof. by vm_compute. Qed.

Example slice_strips_the_quotes :
  slice test.pidLine 1 (len test.pidLine - 2) = Some "28400".
Proof. by vm_compute. Qed.

Example privPodName_of_the_test_pod :
  ToLower (replaceUnderscores ("priv_" +:+ "Test_Pod" +:+ "_" +:+ "target-container"))
  = "priv-test-pod-target-container".
Proof. reflexivity. Qed.

(** An active request whose privileged pod gets to run: the inspection and
    the namespace-entry command are executed in this order, and the pod
    object and the API server end with the status [done]. *)
Example active_request_runs :
  let newObj := test.requested constants.StatusActive in
  let w := test.world [newObj] [] [[PodEvent "Pending"; PodEvent "Running"]]
             [StreamDone test.pidLine ""; StreamDone "Saved corefile core.1" ""] in
  let r := handleUpdate test.CmdArgs [] test.targetPodSpecWithNode newObj w in
  r.1 = Ret (test.requested constants.StatusDone) ∧
  execCommands (trace r.2) =
    [ ["docker"; "inspect"; "--format"; "'{{ .State.Pid }}'"; "containerid"];
      ["nsenter"; "--target"; "28400"; "--ipc"; "--uts"; "--net"; "--pid";
       "target-action"] ] ∧
  Annotations <$> store r.2 !! ("default", "test-pod")
    = Some (Some (test.requestAnnotations constants.StatusDone)) ∧
  processCalls (trace r.2) = 1%nat.
Proof. cbn zeta. split_and!; by vm_compute. Qed.

(** A done request: the privileged pod is deleted, the three annotations
    are removed from the pod object and from the API server, the others
    stay. *)
Example done_request_cleans_up :
  let newObj := test.requested constants.StatusDone in
  let w := test.world [newObj; test.privPod] [] [] [] in
  let r := handleUpdate test.CmdArgs [] test.targetPodSpecWithNode newObj w in
  r.1 = Ret test.targetPodSpecWithNode ∧
  store r.2 !! ("default", "priv-test-pod-target-container") = None ∧
  Annotations <$> store r.2 !! ("default", "test-pod")
    = Some (Some test.initAnnotations) ∧
  processCalls (trace r.2) = 1%nat.
Proof. cbn zeta. split_and!; by vm_compute. Qed.


(** * Further properties of the package *)

(** ** The derived name of the privileged pod *)

Lemma append_assoc s t u : (s +:+ t) +:+ u = s +:+ t +:+ u.
Proof.
  induction s as [|a s IH]; [done|]. rewrite !append_String. by rewrite IH.
Qed.

Lemma replaceUnderscores_app s t :
  replaceUnderscores (s +:+ t) = replaceUnderscores s +:+ replaceUnderscores t.
Proof.
  induction s as [|a s IH]; [done|].
  rewrite append_String. cbn [replaceUnderscores]. by rewrite IH.
Qed.

Lemma ToLower_app s t : ToLower (s +:+ t) = ToLower s +:+ ToLower t.
Proof.
  induction s as [|a s IH]; [done|].
  rewrite append_String. cbn [ToLower]. by rewrite IH.
Qed.

Lemma lowerByte_idemp c : lowerByte (lowerByte c) = lowerByte c.
Proof. by destruct c as [[] [] [] [] [] [] [] []]. Qed.

Lemma lowerByte_not_upper c : ¬ isUpper (lowerByte c).
Proof.
  destruct c as [[] [] [] [] [] [] [] []]; vm_compute; intros [H1 H2];
    first [by apply H1 | by apply H2 | lia].
Qed.

Lemma lowerByte_underscore c : lowerByte c = "_"%char → c = "_"%char.
Proof. by destruct c as [[] [] [] [] [] [] [] []]. Qed.

Lemma ToLower_idemp s : ToLower (ToLower s) = ToLower s.
Proof.
  induction s as [|a s IH]; [done|]. cbn [ToLower].
  by rewrite lowerByte_idemp, IH.
Qed.

Lemma replaceUnderscores_idemp s :
  replaceUnderscores (replaceUnderscores s) = replaceUnderscores s.
Proof.
  induction s as [|a s IH]; [done|]. cbn [replaceUnderscores]. rewrite IH.
  by destruct (Ascii.eqb a "_") eqn:E; [|rewrite E].
Qed.

Lemma ToLower_replaceUnderscores s :
  ToLower (replaceUnderscores (ToLower s)) = ToLower (replaceUnderscores s).
Proof.
  induction s as [|a s IH]; [done|]. cbn [ToLower replaceUnderscores].
  rewrite IH. f_equal.
  by destruct a as [[] [] [] [] [] [] [] []].
Qed.

Lemma len_replaceUnderscores s : len (replaceUnderscores s) = len s.
Proof.
  induction s as [|a s IH]; [done|]. cbn [replaceUnderscores].
  by rewrite !len_String, IH.
Qed.

Lemma len_ToLower s : len (ToLower s) = len s.
Proof.
  induction s as [|a s IH]; [done|]. cbn [ToLower]. by rewrite !len_String, IH.
Qed.

Lemma bytes_normal s :
  Forall (λ c, c ≠ "_"%char ∧ ¬ isUpper c) (bytes (ToLower (replaceUnderscores s))).
Proof.
  induction s as [|a s IH]; [constructor|].
  cbn [replaceUnderscores ToLower bytes String.list_ascii_of_string].
  constructor; [|exact IH]. split; [|apply lowerByte_not_upper].
  intros Hu%lowerByte_underscore. by destruct (Ascii.eqb a "_") eqn:E;
    [|apply Ascii.eqb_neq in E].
Qed.

Lemma isASCII_app s t : isASCII (s +:+ t) = isASCII s && isASCII t.
Proof.
  unfold isASCII, bytes. induction s as [|a s IH]; [done|].
  rewrite append_String. cbn [String.list_ascii_of_string forallb].
  by rewrite IH, andb_assoc.
Qed.

Lemma isASCII_replaceUnderscores s : isASCII (replaceUnderscores s) = isASCII s.
Proof.
  unfold isASCII, bytes. induction s as [|a s IH]; [done|].
  cbn [replaceUnderscores String.list_ascii_of_string forallb].
  rewrite IH. f_equal.
  destruct (Ascii.eqb a "_") eqn:E; [|done].
  by apply Ascii.eqb_eq in E as ->.
Qed.

Lemma isASCII_lowerByte c :
  bool_decide (nat_of_ascii (lowerByte c) < 128)%nat =
  bool_decide (nat_of_ascii c < 128)%nat.
Proof. by destruct c as [[] [] [] [] [] [] [] []]. Qed.

Lemma isASCII_ToLower s : isASCII (ToLower s) = isASCII s.
Proof.
  unfold isASCII, bytes. induction s as [|a s IH]; [done|].
  cbn [ToLower String.list_ascii_of_string forallb].
  by rewrite IH, isASCII_lowerByte.
Qed.

Lemma isASCII_derivedPrivPodName podName containerName :
  isASCII podName = true → isASCII containerName = true →
  isASCII (derivedPrivPodName podName containerName) = true.
Proof.
  intros Hp Hc. unfold derivedPrivPodName.
  by rewrite isASCII_ToLower, isASCII_replaceUnderscores, !isASCII_app, Hp, Hc.
Qed.

(** For ASCII names, on which [ToLower] is [strings.ToLower]: the
    derived name starts with [priv-], is six bytes longer than the two
    names together, holds neither an underscore nor an upper-case letter
    and is ASCII again. *)
Theorem derivedPrivPodName_normal (podName containerName : string) :
  isASCII podName = true →
  isASCII containerName = true →
  let name := derivedPrivPodName podName containerName in
  name = "priv-" +:+ ToLower (replaceUnderscores podName) +:+ "-"
         +:+ ToLower (replaceUnderscores containerName)
  ∧ len name = len podName + len containerName + 6
  ∧ Forall (λ c, c ≠ "_"%char ∧ ¬ isUpper c) (bytes name)
  ∧ isASCII name = true.
Proof.
  intros Hp Hc. cbn zeta. split; [|split; [|split]].
  - unfold derivedPrivPodName.
    by rewrite !replaceUnderscores_app, !ToLower_app.
  - unfold derivedPrivPodName.
    rewrite len_ToLower, len_replaceUnderscores, !len_app.
    unfold len at 1 3. cbn. lia.
  - apply bytes_normal.
  - by apply isASCII_derivedPrivPodName.
Qed.

Lemma derivedPrivPodName_normal_at_mixed_case_names :
  let name := derivedPrivPodName "Test_Pod" "Main_Container" in
  name = "priv-" +:+ ToLower (replaceUnderscores "Test_Pod") +:+ "-"
         +:+ ToLower (replaceUnderscores "Main_Container")
  ∧ len name = len "Test_Pod" + len "Main_Container" + 6
  ∧ Forall (λ c, c ≠ "_"%char ∧ ¬ isUpper c) (bytes name)
  ∧ isASCII name = true.
Proof.
  apply (derivedPrivPodName_normal "Test_Pod" "Main_Container"); reflexivity.
Defined.

(** For ASCII names: the derived name does not tell requests apart
    that differ in where the pod name ends and the container name begins,
    in underscores against hyphens, or in the case of letters: such
    requests get the same privileged pod. *)
Theorem derivedPrivPodName_collisions (a b c : string) :
  isASCII a = true →
  isASCII b = true →
  isASCII c = true →
  derivedPrivPodName a (b +:+ "-" +:+ c) = derivedPrivPodName (a +:+ "-" +:+ b) c
  ∧ derivedPrivPodName a (b +:+ "_" +:+ c) = derivedPrivPodName (a +:+ "_" +:+ b) c
  ∧ derivedPrivPodName (replaceUnderscores a) (replaceUnderscores c)
    = derivedPrivPodName a c
  ∧ derivedPrivPodName (ToLower a) (ToLower c) = derivedPrivPodName a c
  ∧ isASCII (derivedPrivPodName a (b +:+ "_" +:+ c)) = true.
Proof.
  intros Ha Hb Hc. split_and!.
  - unfold derivedPrivPodName.
    by rewrite !replaceUnderscores_app, !ToLower_app, !append_assoc.
  - unfold derivedPrivPodName.
    by rewrite !replaceUnderscores_app, !ToLower_app, !append_assoc.
  - unfold derivedPrivPodName.
    by rewrite !replaceUnderscores_app, !replaceUnderscores_idemp.
  - unfold derivedPrivPodName.
    rewrite !replaceUnderscores_app, !ToLower_app, !ToLower_replaceUnderscores.
    done.
  - apply isASCII_derivedPrivPodName; [done|].
    by rewrite !isASCII_app, Hb, Hc.
Qed.

Lemma derivedPrivPodName_collisions_at_web_pods :
  let a := "Web" in
  let b := "app" in
  let c := "Side_car" in
  derivedPrivPodName a (b +:+ "-" +:+ c) = derivedPrivPodName (a +:+ "-" +:+ b) c
  ∧ derivedPrivPodName a (b +:+ "_" +:+ c) = derivedPrivPodName (a +:+ "_" +:+ b) c
  ∧ derivedPrivPodName (replaceUnderscores a) (replaceUnderscores c)
    = derivedPrivPodName a c
  ∧ derivedPrivPodName (ToLower a) (ToLower c) = derivedPrivPodName a c
  ∧ isASCII (derivedPrivPodName a (b +:+ "_" +:+ c)) = true.
Proof.
  apply (derivedPrivPodName_collisions "Web" "app" "Side_car"); reflexivity.
Defined.

(** ** The tokens of the action *)

Lemma append_nil_r s : s +:+ "" = s.
Proof. induction s as [|a s IH]; [done|]. by rewrite append_String, IH. Qed.

Lemma string_of_bytes s : String.string_of_list_ascii (bytes s) = s.
Proof. apply String.string_of_list_ascii_of_string. Qed.

Lemma bytes_of_string l : bytes (String.string_of_list_ascii l) = l.
Proof. apply String.list_ascii_of_string_of_list_ascii. Qed.

Lemma fieldsAux_tokens s :
  ∀ cur, Forall (λ c, isSpace c = false) cur →
         Forall (λ f, f ≠ "" ∧ spaceFree f) (fieldsAux cur s).
Proof.
  assert (Hflush : ∀ cur rest,
            Forall (λ c, isSpace c = false) cur →
            Forall (λ f, f ≠ "" ∧ spaceFree f) rest →
            Forall (λ f, f ≠ "" ∧ spaceFree f)
              match cur with
              | [] => rest
              | _ => String.string_of_list_ascii (rev cur) :: rest
              end).
  { intros [|c cur] rest Hcur Hrest; [done|]. constructor; [|done]. split.
    - intros Hnil. apply (f_equal bytes) in Hnil.
      rewrite bytes_of_string in Hnil. cbn [rev] in Hnil.
      by destruct (rev cur).
    - unfold spaceFree. rewrite bytes_of_string. by apply List.Forall_rev. }
  induction s as [|c s IH]; intros cur Hcur; cbn [fieldsAux]; cbn zeta.
  - by apply Hflush.
  - destruct (isSpace c) eqn:Hc.
    + apply Hflush; [done|]. by apply IH.
    + apply IH. by constructor.
Qed.

Lemma isASCII_Forall s :
  isASCII s = true ↔ Forall (λ c, (nat_of_ascii c < 128)%nat) (bytes s).
Proof.
  unfold isASCII. induction (bytes s) as [|c l IH]; cbn [forallb].
  - split; [constructor|done].
  - rewrite andb_true_iff, Forall_cons, bool_decide_eq_true, IH. done.
Qed.

Lemma fieldsAux_bytes (P : ascii → Prop) s :
  Forall P (bytes s) →
  ∀ cur, Forall P cur → Forall (λ f, Forall P (bytes f)) (fieldsAux cur s).
Proof.
  assert (Hflush : ∀ cur rest,
            Forall P cur →
            Forall (λ f, Forall P (bytes f)) rest →
            Forall (λ f, Forall P (bytes f))
              match cur with
              | [] => rest
              | _ => String.string_of_list_ascii (rev cur) :: rest
              end).
  { intros [|c cur] rest Hcur Hrest; [done|]. constructor; [|done].
    rewrite bytes_of_string. by apply List.Forall_rev. }
  induction s as [|c s IH]; intros Hs cur Hcur; cbn [fieldsAux]; cbn zeta.
  - by apply Hflush.
  - cbn [bytes String.list_ascii_of_string] in Hs.
    apply Forall_cons in Hs as [Hc Hs].
    destruct (isSpace c).
    + apply Hflush; [done|]. by apply IH.
    + apply IH; [done|]. by constructor.
Qed.

Lemma fieldsAux_bytes_kept s :
  ∀ cur,
    flat_map bytes (fieldsAux cur s) =
    rev cur ++ List.filter (λ c, negb (isSpace c)) (bytes s).
Proof.
  assert (Hflush : ∀ cur rest,
            flat_map bytes
              match cur with
              | [] => rest
              | _ => String.string_of_list_ascii (rev cur) :: rest
              end = rev cur ++ flat_map bytes rest).
  { intros [|c cur] rest; [done|].
    cbn [flat_map]. by rewrite bytes_of_string. }
  induction s as [|c s IH]; intros cur; cbn [fieldsAux]; cbn zeta.
  - rewrite Hflush. done.
  - cbn [bytes String.list_ascii_of_string List.filter].
    destruct (isSpace c); cbn [negb].
    + rewrite Hflush, IH. done.
    + rewrite IH. cbn [rev]. by rewrite <- app_assoc.
Qed.

(** For an ASCII action, on which [Fields] is [strings.Fields]: the
    tokens are not empty, hold no white space and are ASCII, and together
    they are the bytes of the action other than white space, in order:
    quotes in the action annotation do not keep words together, and
    nothing but white space is dropped. *)
Theorem Fields_tokens (action : string) :
  isASCII action = true →
  Forall (λ f, f ≠ "" ∧ spaceFree f ∧ isASCII f = true) (Fields action)
  ∧ flat_map bytes (Fields action) =
    List.filter (λ c, negb (isSpace c)) (bytes action).
Proof.
  intros Ha. split.
  - pose proof (fieldsAux_tokens action [] (List.Forall_nil _)) as Ht.
    pose proof (fieldsAux_bytes (λ c, (nat_of_ascii c < 128)%nat) action
                  (proj1 (isASCII_Forall action) Ha) [] (List.Forall_nil _)) as Hb.
    unfold Fields. revert Ht Hb.
    induction (fieldsAux [] action) as [|f l IH]; intros Ht Hb; [constructor|].
    apply Forall_cons in Ht as [[Hne Hsp] Ht].
    apply Forall_cons in Hb as [Hf Hb].
    constructor; [|by apply IH].
    split; [done|]. split; [done|]. by apply isASCII_Forall.
  - unfold Fields. by rewrite fieldsAux_bytes_kept.
Qed.

Lemma Fields_tokens_at_quoted_action :
  let action := "sh -c  'ls /tmp' " in
  Forall (λ f, f ≠ "" ∧ spaceFree f ∧ isASCII f = true) (Fields action)
  ∧ flat_map bytes (Fields action) =
    List.filter (λ c, negb (isSpace c)) (bytes action).
Proof.
  apply (Fields_tokens "sh -c  'ls /tmp' "). reflexivity.
Defined.

Lemma fieldsAux_token f s :
  spaceFree f →
  ∀ cur, fieldsAux cur (f +:+ s) = fieldsAux (rev (bytes f) ++ cur) s.
Proof.
  unfold spaceFree. induction f as [|c f IH]; intros Hf cur; [done|].
  cbn [bytes String.list_ascii_of_string] in Hf.
  apply Forall_cons in Hf as [Hc Hf].
  rewrite append_String. cbn [fieldsAux]. rewrite Hc.
  rewrite (IH Hf). cbn [bytes String.list_ascii_of_string rev].
  by rewrite <- app_assoc.
Qed.

Lemma fieldsAux_join (tokens : list string) :
  Forall (λ f, f ≠ "" ∧ spaceFree f) tokens →
  fieldsAux [] (join " " tokens) = tokens.
Proof.
  induction 1 as [|f rest [Hne Hf] Hrest IH]; [done|].
  assert (Hcur : ∀ s,
            fieldsAux (rev (bytes f) ++ []) s =
            match s with
            | EmptyString => [f]
            | String c s' =>
                if isSpace c then f :: fieldsAux [] s'
                else fieldsAux (c :: rev (bytes f) ++ []) s'
            end).
  { intros s. rewrite app_nil_r.
    destruct (rev (bytes f)) as [|c cur] eqn:Hrev.
    - apply (f_equal (@rev ascii)) in Hrev. rewrite rev_involutive in Hrev.
      apply (f_equal String.string_of_list_ascii) in Hrev.
      by rewrite string_of_bytes in Hrev.
    - assert (Hf' : String.string_of_list_ascii (rev (c :: cur)) = f).
      { by rewrite <- Hrev, rev_involutive, string_of_bytes. }
      destruct s as [|c' s']; cbn [fieldsAux]; cbn zeta; [by rewrite Hf'|].
      destruct (isSpace c'); [by rewrite Hf'|done]. }
  destruct rest as [|g rest].
  - cbn [join]. transitivity (fieldsAux [] (f +:+ "")).
    { by rewrite append_nil_r. }
    by rewrite (fieldsAux_token _ _ Hf), Hcur.
  - change (join " " (f :: g :: rest)) with (f +:+ " " +:+ join " " (g :: rest)).
    rewrite (fieldsAux_token _ _ Hf), Hcur.
    change (" " +:+ join " " (g :: rest)) with (String " " (join " " (g :: rest))).
    change (isSpace " ") with true. cbn beta iota. by rewrite IH.
Qed.

Lemma isASCII_join (tokens : list string) :
  Forall (λ f, isASCII f = true) tokens → isASCII (join " " tokens) = true.
Proof.
  induction 1 as [|f rest Hf Hrest IH]; [done|].
  destruct rest as [|g rest]; [done|].
  change (join " " (f :: g :: rest)) with (f +:+ " " +:+ join " " (g :: rest)).
  by rewrite !isASCII_app, Hf, IH.
Qed.

(** ASCII tokens without white space, joined by single spaces, give
    an ASCII action, on which [Fields] is [strings.Fields], and come back
    as they were. *)
Theorem Fields_join (tokens : list string) :
  Forall (λ f, f ≠ "" ∧ spaceFree f ∧ isASCII f = true) tokens →
  isASCII (join " " tokens) = true ∧ Fields (join " " tokens) = tokens.
Proof.
  intros Ht. split.
  - apply isASCII_join. eapply Forall_impl; [exact Ht|]. by intros f (_ & _ & ?).
  - unfold Fields. apply fieldsAux_join.
    eapply Forall_impl; [exact Ht|]. by intros f (? & ? & _).
Qed.

Lemma Fields_join_at_command :
  isASCII (join " " ["gdb"; "-p"; "1"; "-batch"]) = true ∧
  Fields (join " " ["gdb"; "-p"; "1"; "-batch"]) = ["gdb"; "-p"; "1"; "-batch"].
Proof.
  apply (Fields_join ["gdb"; "-p"; "1"; "-batch"]).
  repeat constructor; by vm_compute.
Defined.

(** ** Deleting and writing annotations *)

Lemma lookup_deleted ks :
  ∀ (a : option (gmap string string)) key,
    foldl (λ acc k, delete k <$> acc) a ks ≫= (.!! key) =
    if decide (key ∈ ks) then None else a ≫= (.!! key).
Proof.
  induction ks as [|k ks IH]; intros a key; cbn [foldl].
  - destruct (decide (key ∈ [])) as [Hin|]; [by apply elem_of_nil in Hin|done].
  - rewrite IH, lookup_delete_annotations.
    destruct (decide (key ∈ ks)) as [Hin|Hin].
    + rewrite decide_True; [done|]. apply elem_of_cons. by right.
    + destruct (decide (k = key)) as [->|Hne].
      * rewrite decide_True; [done|]. apply elem_of_cons. by left.
      * rewrite decide_False; [done|].
        by intros [->|?]%elem_of_cons.
Qed.

(** The loop of the deletion runs to its end exactly when the keys of the
    list are pairwise distinct and each of them reads as non-empty. *)
Lemma deleteLoop_completes ks :
  ∀ a a',
    (deleteLoop ks a = inr a') ↔
    (NoDup ks ∧ Forall (λ k, default "" (a ≫= (.!! k)) ≠ "") ks ∧
     a' = foldl (λ acc k, delete k <$> acc) a ks).
Proof.
  induction ks as [|k ks IH]; intros a a'; cbn [deleteLoop foldl].
  { split; [intros [= <-]; by repeat constructor|by intros (_ & _ & ->)]. }
  destruct (decide (default "" (a ≫= (.!! k)) = "")) as [Hk|Hk].
  { split; [done|]. intros (_ & Hall & _). by apply Forall_cons in Hall as [? _]. }
  rewrite IH, NoDup_cons, Forall_cons.
  assert (Hrest :
    Forall (λ j, default "" ((delete k <$> a) ≫= (.!! j)) ≠ "") ks ↔
    (k ∉ ks) ∧ Forall (λ j, default "" (a ≫= (.!! j)) ≠ "") ks).
  { rewrite !Forall_forall. split.
    - intros Hall. split.
      + intros Hin. apply (Hall k Hin).
        rewrite lookup_delete_annotations. by rewrite decide_True.
      + intros j Hj. specialize (Hall j Hj).
        rewrite lookup_delete_annotations in Hall.
        by destruct (decide (k = j)).
    - intros [Hnotin Hall] j Hj. rewrite lookup_delete_annotations.
      rewrite decide_False; [by apply Hall|]. by intros ->. }
  rewrite Hrest. tauto.
Qed.

Lemma trace_Patch namespace name patch w :
  trace (client.Patch namespace name patch w).2
  = trace w ++ [ReqPatch namespace name patch].
Proof.
  rewrite run_Patch. cbn zeta.
  destruct (default None (head (faults w))); [done|].
  by destruct (store w !! (namespace, name)).
Qed.

Lemma run_deletion_completes namespace ks pod rs w a' :
  deleteLoop ks (Annotations pod) = inr a' →
  applyAnnotationDeletionOnPod namespace ks pod rs w =
  let '(r, w') :=
    applyPatchForAnnotation namespace pod (setAnnotations a' pod)
      (setAnnotations a' pod) rs w in
  (match r with
   | Ret err => Ret (err, setAnnotations a' pod)
   | Panic msg => Panic msg
   end, w').
Proof.
  intros Hloop. unfold applyAnnotationDeletionOnPod. rewrite Hloop. go.
  by destruct (applyPatchForAnnotation _ _ _ _ _ w) as [[err|msg] w'].
Qed.

(** A deletion that returns no error had a list of pairwise distinct keys,
    each present on the pod with a value that is not empty (a key listed
    twice makes the deletion fail); it has removed exactly the listed keys
    from the pod object, changed nothing else of it, and sent one patch,
    for the pod of that name. *)
Theorem deletion_succeeds_on_distinct_present_keys_only
    (namespace : string) (ks : list string) (pod : Pod) (rs : requestSpec)
    (w : World) (pod' : Pod) (w' : World) :
  applyAnnotationDeletionOnPod namespace ks pod rs w = (Ret (None, pod'), w') →
  NoDup ks
  ∧ Forall (λ k, annotation pod k ≠ "") ks
  ∧ pod' = setAnnotations (Annotations pod') pod
  ∧ (∀ key, Annotations pod' ≫= (.!! key) =
            if decide (key ∈ ks) then None else Annotations pod ≫= (.!! key))
  ∧ trace w' =
      trace w ++ [ReqPatch namespace (Name pod) (CreateTwoWayMergePatch pod pod')].
Proof.
  intros Hrun.
  destruct (deleteLoop ks (Annotations pod)) as [[k a']|a'] eqn:Hloop.
  { by rewrite (run_deletion_stops _ _ _ _ _ _ _ Hloop) in Hrun. }
  rewrite (run_deletion_completes _ _ _ _ _ _ Hloop) in Hrun.
  rewrite run_applyPatchForAnnotation in Hrun. cbn [Name setAnnotations] in Hrun.
  pose proof (trace_Patch namespace (Name pod)
                (CreateTwoWayMergePatch pod (setAnnotations a' pod)) w) as Htrace.
  destruct (client.Patch _ _ _ w) as [[[e|]|msg] w1]; try done.
  injection Hrun as <- <-.
  apply deleteLoop_completes in Hloop as (Hnodup & Hall & ->).
  split; [done|]. split; [done|]. split; [done|]. split; [|done].
  intros key. cbn [Annotations setAnnotations]. apply lookup_deleted.
Qed.

(** A deletion of pairwise distinct keys that are all present with values
    that are not empty, whose patch the API server serves, returns no
    error; the listed keys are gone from the pod object, and from the copy
    on the API server if that copy carried the annotations of the pod
    object. *)
Theorem deletion_of_distinct_present_keys
    (namespace : string) (ks : list string) (pod stored : Pod)
    (rs : requestSpec) (w : World) :
  NoDup ks →
  Forall (λ k, annotation pod k ≠ "") ks →
  default None (head (faults w)) = None →
  store w !! (namespace, Name pod) = Some stored →
  ∃ pod' stored' w',
    applyAnnotationDeletionOnPod namespace ks pod rs w = (Ret (None, pod'), w') ∧
    (∀ key, Annotations pod' ≫= (.!! key) =
            if decide (key ∈ ks) then None else Annotations pod ≫= (.!! key)) ∧
    store w' !! (namespace, Name pod) = Some stored' ∧
    (default ∅ (Annotations stored) = default ∅ (Annotations pod) →
     default ∅ (Annotations stored') = default ∅ (Annotations pod')).
Proof.
  intros Hnodup Hall Hfault Hstored.
  set (a' := foldl (λ acc k, delete k <$> acc) (Annotations pod) ks).
  assert (Hloop : deleteLoop ks (Annotations pod) = inr a').
  { by apply deleteLoop_completes. }
  eexists (setAnnotations a' pod), _, _.
  rewrite (run_deletion_completes _ _ _ _ _ _ Hloop).
  rewrite run_applyPatchForAnnotation, run_Patch. cbn zeta.
  cbn [Name setAnnotations]. rewrite Hfault, Hstored.
  split; [reflexivity|]. split; [intros key; apply lookup_deleted|].
  cbn [store setStore]. split; [apply lookup_insert_eq|].
  intros Hsync. by apply applyPatch_diff.
Qed.

(** An upsert whose patch fails returns the error of the patch under the
    heading "failed to patch annotation to pod"; the API server holds what
    it held, and the pod object carries the new values all the same. *)
Theorem failed_upsert_changes_the_pod_object_only
    (namespace : string) (upd : gmap string string) (pod : Pod)
    (rs : requestSpec) (w w' : World) (e : string) :
  client.Patch namespace (Name pod)
    (CreateTwoWayMergePatch pod (upserted upd pod)) w = (Ret (Some e), w') →
  applyAnnotationUpdateOnPod namespace upd pod rs w =
    (Ret (Some ("failed to patch annotation to pod " +:+ Name pod +:+ ": " +:+ e),
          upserted upd pod), w')
  ∧ store w' = store w
  ∧ (∀ key value, upd !! key = Some value →
                  annotation (upserted upd pod) key = value)
  ∧ (∀ key, upd !! key = None →
            annotation (upserted upd pod) key = annotation pod key).
Proof.
  intros Hpatch.
  rewrite run_applyAnnotationUpdateOnPod, run_applyPatchForAnnotation.
  cbn [Name upserted setAnnotations] in *. rewrite Hpatch.
  split; [done|]. split.
  { rewrite run_Patch in Hpatch. cbn zeta in Hpatch.
    destruct (default None (head (faults w))); [by injection Hpatch as _ <-|].
    destruct (store w !! (namespace, Name pod)); [done|].
    by injection Hpatch as _ <-. }
  split; [intros key value; apply annotation_upserted|].
  intros key Hkey. unfold annotation. simpl.
  rewrite lookup_union_r by done. by destruct (Annotations pod).
Qed.

(** Writing a request on a pod that has none of the protocol keys and
    deleting the protocol annotations again gives back the annotations the
    pod object had, provided container and action are not empty: with an
    empty value the deletion stops at that key. *)
Theorem upsert_then_deletion_restores_annotations
    (namespace : string) (pod : Pod) (rs : requestSpec)
    (status c a : string) (w : World) :
  let M := default ∅ (Annotations pod) in
  let upd := {[ constants.AnnotationExecuteStatus := status;
                constants.AnnotationExecuteContainer := c;
                constants.AnnotationExecuteAction := a ]} in
  M !! constants.AnnotationExecuteStatus = None →
  M !! constants.AnnotationExecuteContainer = None →
  M !! constants.AnnotationExecuteAction = None →
  status ≠ "" →
  (c ≠ "" → a ≠ "" →
   ∃ err w',
     deletePrivilegedCommandExecutorAnnotation namespace (upserted upd pod) rs w
     = (Ret (err, setAnnotations (Some M) pod), w'))
  ∧ (c = "" →
     (deletePrivilegedCommandExecutorAnnotation namespace (upserted upd pod) rs w).1
     = Ret (Some (doesNotExist constants.AnnotationExecuteContainer),
            setAnnotations
              (Some (delete constants.AnnotationExecuteStatus (upd ∪ M))) pod)).
Proof.
  intros M upd Hs Hc Ha Hstatus.
  set (kS := constants.AnnotationExecuteStatus) in *.
  set (kC := constants.AnnotationExecuteContainer) in *.
  set (kA := constants.AnnotationExecuteAction) in *.
  assert (HSC : kS ≠ kC) by done. assert (HSA : kS ≠ kA) by done.
  assert (HCA : kC ≠ kA) by done.
  assert (Hupd : upd ∪ M = <[kS:=status]> (<[kC:=c]> (<[kA:=a]> M))).
  { unfold upd. rewrite <- !insert_union_l. f_equal. f_equal.
    by rewrite <- insert_union_singleton_l. }
  assert (HlS : (upd ∪ M) !! kS = Some status).
  { rewrite Hupd. apply lookup_insert_eq. }
  assert (HlC : (upd ∪ M) !! kC = Some c).
  { rewrite Hupd. rewrite lookup_insert_ne by done. apply lookup_insert_eq. }
  assert (HlA : (upd ∪ M) !! kA = Some a).
  { rewrite Hupd. rewrite !lookup_insert_ne by done. apply lookup_insert_eq. }
  assert (HdelS : delete kS (upd ∪ M) = <[kC:=c]> (<[kA:=a]> M)).
  { rewrite Hupd, delete_insert_eq. rewrite !delete_insert_ne by done.
    by rewrite delete_id. }
  unfold deletePrivilegedCommandExecutorAnnotation. fold kS kC kA. split.
  - intros Hcne Hane.
    assert (Hloop : deleteLoop [kS; kC; kA] (Annotations (upserted upd pod))
                    = inr (Some M)).
    { apply deleteLoop_completes. unfold upserted.
      cbn [Annotations setAnnotations foldl]. fold M. split; [|split].
      - repeat constructor; rewrite ?elem_of_cons, ?elem_of_nil; tauto.
      - repeat constructor; simpl.
        + by rewrite HlS.
        + by rewrite HlC.
        + by rewrite HlA.
      - simpl. f_equal. rewrite HdelS, delete_insert_eq.
        rewrite delete_insert_ne by done. rewrite (delete_id M kC) by done.
        by rewrite delete_insert_eq, delete_id. }
    rewrite (run_deletion_completes _ _ _ _ _ _ Hloop).
    destruct (applyPatchForAnnotation _ _ _ _ _ w) as [[err|msg] w'] eqn:Hp.
    + by exists err, w'.
    + rewrite run_applyPatchForAnnotation, run_Patch in Hp. cbn zeta in Hp.
      destruct (default None (head (faults w))); [done|].
      by destruct (store w !! _).
  - intros ->.
    erewrite run_deletion_stops; [reflexivity|].
    unfold upserted. cbn [Annotations setAnnotations deleteLoop]. fold M.
    simpl. rewrite HlS. simpl.
    destruct (decide (status = "")) as [|_]; [done|].
    rewrite lookup_delete_ne by done. rewrite HlC. simpl.
    by destruct (decide ("" = "")).
Qed.

Lemma deletion_succeeds_at_test_pod :
  let pod := test.requested constants.StatusDone in
  let w := test.world [pod] [] [] [] in
  NoDup protocolKeys
  ∧ Forall (λ k, annotation pod k ≠ "") protocolKeys
  ∧ (∀ key, Annotations test.targetPodSpecWithNode ≫= (.!! key) =
            if decide (key ∈ protocolKeys) then None
            else Annotations pod ≫= (.!! key)).
Proof.
  cbn zeta.
  destruct (deletion_succeeds_on_distinct_present_keys_only "default"
              protocolKeys (test.requested constants.StatusDone)
              test.currRequest
              (test.world [test.requested constants.StatusDone] [] [] [])
              test.targetPodSpecWithNode
              (applyAnnotationDeletionOnPod "default" protocolKeys
                 (test.requested constants.StatusDone) test.currRequest
                 (test.world [test.requested constants.StatusDone] [] [] [])).2)
    as (H1 & H2 & _ & H3 & _).
  - vm_compute. reflexivity.
  - split; [exact H1|]. split; [exact H2|exact H3].
Defined.

Lemma deletion_of_present_keys_at_test_pod :
  let pod := test.requested constants.StatusDone in
  let w := test.world [pod] [] [] [] in
  ∃ pod' stored' w',
    applyAnnotationDeletionOnPod "default" protocolKeys pod test.currRequest w
      = (Ret (None, pod'), w') ∧
    (∀ key, Annotations pod' ≫= (.!! key) =
            if decide (key ∈ protocolKeys) then None
            else Annotations pod ≫= (.!! key)) ∧
    store w' !! ("default", Name pod) = Some stored' ∧
    (default ∅ (Annotations pod) = default ∅ (Annotations pod) →
     default ∅ (Annotations stored') = default ∅ (Annotations pod')).
Proof.
  cbn zeta.
  apply (deletion_of_distinct_present_keys "default" protocolKeys
           (test.requested constants.StatusDone)
           (test.requested constants.StatusDone) test.currRequest
           (test.world [test.requested constants.StatusDone] [] [] [])).
  - repeat constructor; rewrite ?elem_of_cons, ?elem_of_nil;
      intros H; repeat destruct H as [H|H]; done.
  - repeat constructor; by vm_compute.
  - reflexivity.
  - vm_compute. reflexivity.
Defined.

Lemma failed_upsert_at_unknown_pod :
  let pod := test.requested constants.StatusActive in
  let upd := <[constants.AnnotationExecuteStatus := constants.StatusInProgress]> ∅ in
  let w := test.world [] [] [] [] in
  (applyAnnotationUpdateOnPod "default" upd pod test.currRequest w).1 =
    Ret (Some ("failed to patch annotation to pod test-pod: "
               +:+ client.notFound "test-pod"),
         upserted upd pod)
  ∧ store (applyAnnotationUpdateOnPod "default" upd pod test.currRequest w).2
    = store w
  ∧ annotation (upserted upd pod) constants.AnnotationExecuteStatus
    = constants.StatusInProgress.
Proof.
  cbn zeta.
  destruct (failed_upsert_changes_the_pod_object_only "default"
              (<[constants.AnnotationExecuteStatus := constants.StatusInProgress]> ∅)
              (test.requested constants.StatusActive) test.currRequest
              (test.world [] [] [] [])
              (client.Patch "default" "test-pod"
                 (CreateTwoWayMergePatch (test.requested constants.StatusActive)
                    (upserted
                       (<[constants.AnnotationExecuteStatus :=
                            constants.StatusInProgress]> ∅)
                       (test.requested constants.StatusActive)))
                 (test.world [] [] [] [])).2
              (client.notFound "test-pod"))
    as (H1 & H2 & H3 & _).
  - vm_compute. reflexivity.
  - rewrite H1. split; [reflexivity|]. split; [exact H2|].
    apply H3. apply lookup_insert_eq.
Defined.

Lemma upsert_then_deletion_at_test_pod :
  let pod := test.targetPodSpecWithNode in
  let w := test.world [pod] [] [] [] in
  ∃ err w',
    deletePrivilegedCommandExecutorAnnotation "default"
      (upserted {[ constants.AnnotationExecuteStatus := constants.StatusActive;
                   constants.AnnotationExecuteContainer := "target-container";
                   constants.AnnotationExecuteAction := "target-action" ]} pod)
      test.currRequest w
    = (Ret (err, setAnnotations (Some (default ∅ (Annotations pod))) pod), w').
Proof.
  cbn zeta.
  destruct (upsert_then_deletion_restores_annotations "default"
              test.targetPodSpecWithNode test.currRequest
              constants.StatusActive "target-container" "target-action"
              (test.world [test.targetPodSpecWithNode] [] [] []))
    as [H _]; try (by vm_compute).
  apply H; discriminate.
Defined.

(** ** The life of the privileged pod *)

Lemma setStore_same w : setStore (store w) w = w.
Proof. by destruct w. Qed.

Lemma insert_alter_same {A : Type} (f : A → A) (k : string * string) (v : A)
    (m : gmap (string * string) A) :
  <[k := v]> (alter f k m) = <[k := v]> m.
Proof.
  apply map_eq. intros j. destruct (decide (k = j)) as [->|Hne].
  - by rewrite !lookup_insert_eq.
  - by rewrite !lookup_insert_ne, lookup_alter_ne.
Qed.

(** What the loop has come to after events that report phases other than
    [Running]: the API server has the pod in the phase reported last. *)
Lemma awaitRunning_pending args namespace rs pre rest :
  Forall notYetRunning pre →
  ∀ w p,
    store w !! (namespace, privPodName rs) = Some p →
    awaitRunning args namespace rs (pre ++ rest) w =
    awaitRunning args namespace rs rest
      (setStore (<[(namespace, privPodName rs) :=
                   setPhase (lastPhase (Phase p) pre) p]> (store w)) w).
Proof.
  induction 1 as [|e pre (phase & -> & Hphase) _ IH]; intros w p Hp.
  - cbn [app lastPhase]. rewrite setPhase_same, insert_id by done.
    by rewrite setStore_same.
  - cbn [app awaitRunning lastPhase]. go. unfold client.recorded.
    rewrite run_step. cbn [fst snd].
    destruct (decide (phase = PodRunning)) as [|_]; [done|].
    rewrite (IH _ (setPhase phase p)).
    + cbn [store setStore Phase setPhase]. by rewrite insert_alter_same.
    + cbn [store setStore]. by rewrite lookup_alter_eq, Hp.
Qed.

Lemma run_createPod pod w :
  createPod pod w =
  let w1 := requested (ReqCreate pod) w in
  match default None (head (faults w)) with
  | Some msg =>
      (Ret (Some ("failed to create pod " +:+ Name pod +:+ " on node "
                  +:+ NodeName pod +:+ ": " +:+ msg)), w1)
  | None =>
      match store w !! (Namespace pod, Name pod) with
      | Some _ =>
          (Ret (Some ("failed to create pod " +:+ Name pod +:+ " on node "
                      +:+ NodeName pod +:+ ": "
                      +:+ client.alreadyExists (Name pod))), w1)
      | None =>
          (Ret None, setStore (<[(Namespace pod, Name pod) := pod]> (store w)) w1)
      end
  end.
Proof.
  unfold createPod. go. rewrite run_Create. cbn zeta.
  destruct (default None (head (faults w))); [done|].
  by destruct (store w !! (Namespace pod, Name pod)).
Qed.

Lemma run_createPrivilegedPod_served args namespace nodeName rs w :
  faults w = [] →
  store w !! (namespace, privPodName rs) = None →
  createPrivilegedPod args namespace nodeName rs w =
  awaitRunning args namespace rs (default [] (head (watches w)))
    (watching args namespace nodeName rs w).
Proof.
  intros Hf Hfree. unfold createPrivilegedPod. go. rewrite run_createPod.
  cbn zeta. cbn [privilegedPodSpec Name Namespace]. rewrite Hf, Hfree.
  cbn [head default]. go. rewrite run_Watch. cbn zeta.
  cbn [faults watches requested setStore setFaults setTrace].
  rewrite Hf. cbn [tail head default]. go. reflexivity.
Qed.

(** When the creation and the watch are served and the watch reports the
    pod in the phase [Running], after any number of reports in other
    phases, [createPrivilegedPod] returns no error; it has sent the
    creation and the watch request and nothing else, and the API server
    holds the pod as specified, running.  What the watch would report
    after that is not looked at. *)
Theorem createPrivilegedPod_returns_at_Running
    (args : cmdArgs.t) (namespace nodeName : string) (rs : requestSpec)
    (w : World) (pre post : list WatchEvent) :
  faults w = [] →
  store w !! (namespace, privPodName rs) = None →
  head (watches w) = Some (pre ++ PodEvent PodRunning :: post) →
  Forall notYetRunning pre →
  let pod := privilegedPodSpec args (privPodName rs) nodeName namespace in
  ∃ w',
    createPrivilegedPod args namespace nodeName rs w = (Ret None, w') ∧
    store w' !! (namespace, privPodName rs) = Some (setPhase PodRunning pod) ∧
    trace w' = trace w ++ [ReqCreate pod; ReqWatch namespace (privPodName rs)].
Proof.
  intros Hf Hfree Hwatch Hpre pod.
  rewrite (run_createPrivilegedPod_served _ _ _ _ _ Hf Hfree), Hwatch.
  cbn [from_option]. unfold id.
  rewrite (awaitRunning_pending _ _ _ _ _ Hpre _ pod)
    by (cbn [watching store setWatches requested setStore setFaults setTrace];
        apply lookup_insert_eq).
  cbn [awaitRunning]. go. unfold client.recorded. rewrite run_step.
  cbn [fst snd]. destruct (decide (PodRunning = PodRunning)); [|done]. go.
  eexists. split; [reflexivity|]. split.
  - cbn [store setStore]. by rewrite lookup_alter_eq, lookup_insert_eq.
  - cbn [watching trace setStore setWatches requested setFaults setTrace].
    by rewrite <- app_assoc.
Qed.

(** When the creation and the watch are served and the watch reports
    phases other than [Running] only, until the timeout fires, the error
    of [createPrivilegedPod] names the pod and the phase that a last [Get]
    finds, which is the phase reported last (none when nothing was
    reported); the pod stays on the API server. *)
Theorem createPrivilegedPod_timeout_names_the_last_phase
    (args : cmdArgs.t) (namespace nodeName : string) (rs : requestSpec)
    (w : World) :
  faults w = [] →
  store w !! (namespace, privPodName rs) = None →
  Forall notYetRunning (default [] (head (watches w))) →
  let pod := privilegedPodSpec args (privPodName rs) nodeName namespace in
  let phase := lastPhase "" (default [] (head (watches w))) in
  ∃ w',
    createPrivilegedPod args namespace nodeName rs w =
      (Ret (Some ("privileged pod " +:+ privPodName rs
                  +:+ " is not running after "
                  +:+ fmtInt (cmdArgs.PrivPodTimeout args)
                  +:+ " seconds, it is currently in " +:+ phase +:+ " phase")),
       w') ∧
    store w' !! (namespace, privPodName rs) = Some (setPhase phase pod) ∧
    trace w' = trace w ++ [ReqCreate pod; ReqWatch namespace (privPodName rs);
                           ReqGet namespace (privPodName rs)].
Proof.
  intros Hf Hfree Hevents pod phase.
  rewrite (run_createPrivilegedPod_served _ _ _ _ _ Hf Hfree).
  rewrite <- (app_nil_r (default [] (head (watches w)))).
  rewrite (awaitRunning_pending _ _ _ _ _ Hevents _ pod)
    by (cbn [watching store setWatches requested setStore setFaults setTrace];
        apply lookup_insert_eq).
  cbn [awaitRunning]. go. rewrite run_Get. cbn zeta.
  cbn [watching faults store setStore setWatches requested setFaults setTrace].
  rewrite Hf. cbn [tail head default]. rewrite lookup_insert_eq. go.
  eexists. split; [reflexivity|]. split.
  - cbn [store requested setStore setFaults setTrace].
    by rewrite lookup_insert_eq.
  - cbn [watching trace requested setStore setWatches setFaults setTrace].
    by rewrite <- !app_assoc.
Qed.

(** A watch event that carries no pod (an error status, or the zero event
    of a closed channel) makes [createPrivilegedPod] panic with a nil
    pointer dereference; the privileged pod it has created stays on the
    API server. *)
Theorem createPrivilegedPod_panics_on_event_without_pod
    (args : cmdArgs.t) (namespace nodeName : string) (rs : requestSpec)
    (w : World) (pre post : list WatchEvent) :
  faults w = [] →
  store w !! (namespace, privPodName rs) = None →
  head (watches w) = Some (pre ++ OtherEvent :: post) →
  Forall notYetRunning pre →
  ∃ w' pod,
    createPrivilegedPod args namespace nodeName rs w =
      (Panic "invalid memory address or nil pointer dereference", w') ∧
    store w' !! (namespace, privPodName rs) = Some pod ∧
    Name pod = privPodName rs ∧ NodeName pod = nodeName.
Proof.
  intros Hf Hfree Hwatch Hpre.
  rewrite (run_createPrivilegedPod_served _ _ _ _ _ Hf Hfree), Hwatch.
  cbn [from_option]. unfold id.
  rewrite (awaitRunning_pending _ _ _ _ _ Hpre _
             (privilegedPodSpec args (privPodName rs) nodeName namespace))
    by (cbn [watching store setWatches requested setStore setFaults setTrace];
        apply lookup_insert_eq).
  cbn [awaitRunning]. go.
  eexists _, _. split; [reflexivity|]. split.
  - cbn [store setStore]. apply lookup_insert_eq.
  - done.
Qed.

(** When a pod of the name is already there, [createPrivilegedPod] fails
    with the error of the creation under the heading "failed to create
    pod"; it opens no watch, and the pod that was there stays as it was. *)
Theorem createPrivilegedPod_fails_on_existing_pod
    (args : cmdArgs.t) (namespace nodeName : string) (rs : requestSpec)
    (w : World) (existing : Pod) :
  default None (head (faults w)) = None →
  store w !! (namespace, privPodName rs) = Some existing →
  let pod := privilegedPodSpec args (privPodName rs) nodeName namespace in
  ∃ w',
    createPrivilegedPod args namespace nodeName rs w =
      (Ret (Some ("failed to create pod " +:+ privPodName rs +:+ " on node "
                  +:+ nodeName +:+ ": "
                  +:+ client.alreadyExists (privPodName rs))), w') ∧
    store w' = store w ∧
    trace w' = trace w ++ [ReqCreate pod].
Proof.
  intros Hf Hexisting pod. unfold createPrivilegedPod. go.
  rewrite run_createPod. cbn zeta. cbn [privilegedPodSpec Name Namespace NodeName].
  rewrite Hf, Hexisting. go. by eexists.
Qed.

(** When the creation is served and the watch cannot be opened,
    [createPrivilegedPod] returns "error starting watcher for privilege
    pod" with the cause; the pod it has created stays on the API server. *)
Theorem createPrivilegedPod_leaves_pod_when_watch_fails
    (args : cmdArgs.t) (namespace nodeName : string) (rs : requestSpec)
    (w : World) (e : string) (fs : list (option string)) :
  faults w = None :: Some e :: fs →
  store w !! (namespace, privPodName rs) = None →
  let pod := privilegedPodSpec args (privPodName rs) nodeName namespace in
  ∃ w',
    createPrivilegedPod args namespace nodeName rs w =
      (Ret (Some ("error starting watcher for privilege pod: " +:+ e)), w') ∧
    store w' !! (namespace, privPodName rs) = Some pod ∧
    trace w' = trace w ++ [ReqCreate pod; ReqWatch namespace (privPodName rs)].
Proof.
  intros Hf Hfree pod. unfold createPrivilegedPod. go.
  rewrite run_createPod. cbn zeta. cbn [privilegedPodSpec Name Namespace].
  rewrite Hf, Hfree. cbn [head from_option]. unfold id. go. rewrite run_Watch. cbn zeta.
  cbn [faults requested setStore setFaults setTrace]. rewrite Hf.
  cbn [tail head from_option]. unfold id. go.
  eexists. split; [reflexivity|]. split.
  - cbn [store requested setStore setFaults setTrace]. apply lookup_insert_eq.
  - cbn [trace requested setStore setFaults setTrace]. by rewrite <- app_assoc.
Qed.

(** A pod made by [privilegedPodSpec] and created by [createPod] is read
    back as it was specified: under the given name, on the given node, in
    the given namespace, sharing the PID namespace of the host, never
    restarted, and privileged in the sense of [isPrivileged]. *)
Theorem created_pod_is_read_back_privileged
    (args : cmdArgs.t) (podName nodeName namespace : string) (w : World) :
  faults w = [] →
  store w !! (namespace, podName) = None →
  let pod := privilegedPodSpec args podName nodeName namespace in
  ∃ w1 w2,
    createPod pod w = (Ret None, w1) ∧
    client.Get namespace podName w1 = (Ret (pod, None), w2) ∧
    isPrivileged [] pod = true ∧
    Name pod = podName ∧ NodeName pod = nodeName ∧ Namespace pod = namespace ∧
    HostPID pod = true ∧ RestartPolicy pod = "Never" ∧
    ServiceAccountName pod = cmdArgs.Serviceaccount args.
Proof.
  intros Hf Hfree pod. eexists _, _. split.
  - rewrite run_createPod. cbn zeta. cbn [pod privilegedPodSpec Name Namespace].
    rewrite Hf, Hfree. reflexivity.
  - split; [|done]. rewrite run_Get. cbn zeta.
    cbn [faults store requested setStore setFaults setTrace]. rewrite Hf.
    cbn [tail head default]. by rewrite lookup_insert_eq.
Qed.

Lemma createPrivilegedPod_returns_at_Running_at_test_pod :
  let w := test.world [] [] [[PodEvent "Pending"; PodEvent "Running";
                              PodEvent "Succeeded"]] [] in
  let pod := privilegedPodSpec test.CmdArgs "priv-test-pod-target-container"
               "targetNode" "default" in
  ∃ w',
    createPrivilegedPod test.CmdArgs "default" "targetNode" test.currRequest w
      = (Ret None, w') ∧
    store w' !! ("default", "priv-test-pod-target-container")
      = Some (setPhase PodRunning pod) ∧
    trace w' = trace w ++ [ReqCreate pod;
                           ReqWatch "default" "priv-test-pod-target-container"].
Proof.
  cbn zeta.
  apply (createPrivilegedPod_returns_at_Running test.CmdArgs "default"
           "targetNode" test.currRequest
           (test.world [] [] [[PodEvent "Pending"; PodEvent "Running";
                               PodEvent "Succeeded"]] [])
           [PodEvent "Pending"] [PodEvent "Succeeded"]);
    try reflexivity.
  constructor; [by exists "Pending"|constructor].
Defined.

Lemma createPrivilegedPod_timeout_at_pending_pod :
  let w := test.world [] [] [[PodEvent "Pending"]] [] in
  ∃ w',
    createPrivilegedPod test.CmdArgs "default" "targetNode" test.currRequest w =
      (Ret (Some "privileged pod priv-test-pod-target-container is not running after 3 seconds, it is currently in Pending phase"),
       w').
Proof.
  cbn zeta.
  destruct (createPrivilegedPod_timeout_names_the_last_phase test.CmdArgs
              "default" "targetNode" test.currRequest
              (test.world [] [] [[PodEvent "Pending"]] []))
    as (w' & Hrun & _); try reflexivity.
  - constructor; [by exists "Pending"|constructor].
  - exists w'. exact Hrun.
Defined.

Lemma createPrivilegedPod_panics_at_closed_watch :
  let w := test.world [] [] [[PodEvent "Pending"; OtherEvent]] [] in
  ∃ w' pod,
    createPrivilegedPod test.CmdArgs "default" "targetNode" test.currRequest w =
      (Panic "invalid memory address or nil pointer dereference", w') ∧
    store w' !! ("default", "priv-test-pod-target-container") = Some pod ∧
    Name pod = "priv-test-pod-target-container" ∧ NodeName pod = "targetNode".
Proof.
  cbn zeta.
  apply (createPrivilegedPod_panics_on_event_without_pod test.CmdArgs "default"
           "targetNode" test.currRequest
           (test.world [] [] [[PodEvent "Pending"; OtherEvent]] [])
           [PodEvent "Pending"] []);
    try reflexivity.
  constructor; [by exists "Pending"|constructor].
Defined.

Lemma createPrivilegedPod_fails_at_left_over_pod :
  let w := test.world [test.privPod] [] [] [] in
  ∃ w',
    createPrivilegedPod test.CmdArgs "default" "targetNode" test.currRequest w =
      (Ret (Some ("failed to create pod priv-test-pod-target-container on node targetNode: "
                  +:+ client.alreadyExists "priv-test-pod-target-container")),
       w') ∧
    store w' = store w ∧
    trace w' = trace w ++
      [ReqCreate (privilegedPodSpec test.CmdArgs "priv-test-pod-target-container"
                    "targetNode" "default")].
Proof.
  cbn zeta.
  apply (createPrivilegedPod_fails_on_existing_pod test.CmdArgs "default"
           "targetNode" test.currRequest (test.world [test.privPod] [] [] [])
           test.privPod).
  - reflexivity.
  - vm_compute. reflexivity.
Defined.

Lemma createPrivilegedPod_leaves_pod_at_failed_watch :
  let w := test.world [] [None; Some "too many requests"] [] [] in
  let pod := privilegedPodSpec test.CmdArgs "priv-test-pod-target-container"
               "targetNode" "default" in
  ∃ w',
    createPrivilegedPod test.CmdArgs "default" "targetNode" test.currRequest w =
      (Ret (Some "error starting watcher for privilege pod: too many requests"),
       w') ∧
    store w' !! ("default", "priv-test-pod-target-container") = Some pod ∧
    trace w' = trace w ++ [ReqCreate pod;
                           ReqWatch "default" "priv-test-pod-target-container"].
Proof.
  cbn zeta.
  apply (createPrivilegedPod_leaves_pod_when_watch_fails test.CmdArgs "default"
           "targetNode" test.currRequest
           (test.world [] [None; Some "too many requests"] [] [])
           "too many requests" []);
    reflexivity.
Defined.

Lemma created_pod_is_read_back_at_test_pod :
  let pod := privilegedPodSpec test.CmdArgs "priv-test-pod-target-container"
               "targetNode" "default" in
  ∃ w1 w2,
    createPod pod (test.world [] [] [] []) = (Ret None, w1) ∧
    client.Get "default" "priv-test-pod-target-container" w1
      = (Ret (pod, None), w2) ∧
    isPrivileged [] pod = true.
Proof.
  cbn zeta.
  destruct (created_pod_is_read_back_privileged test.CmdArgs
              "priv-test-pod-target-container" "targetNode" "default"
              (test.world [] [] [] []))
    as (w1 & w2 & H1 & H2 & H3 & _); try reflexivity.
  by exists w1, w2.
Defined.
